(** * revel: controller registry, capability-field discovery, lifecycle hooks

    Shallow embedding of [controller_type.go] (package [revel]) and of the
    part of Go's [reflect] and [strings] packages that file calls.

    Conventions of the embedding:
    - a Go panic is the outcome [Panic msg] of the [result] monad;
    - a Go slice is the list of its elements: [append] yields a new list,
      so the capacity of a slice and the sharing of a backing array between
      the slices [append(fieldPath, i)] and [append(node.index, i)] return
      are not represented;
    - a [reflect.Type] is a finite tree [rtype]; the method set reflection
      reports for a type is a table given from outside ([MethodSet]);
    - a [reflect.Value] is a type, an addressability flag and a tree of
      data, or the zero Value [Invalid]. *)

From Stdlib Require Import List String Ascii ZArith Lia Bool Arith Permutation.
From stdpp Require Import base gmap strings.
Import ListNotations.
Local Open Scope string_scope.
Local Open Scope list_scope.

(** ** Outcomes: normal return, panic, or loop budget exhausted *)

Inductive result (A : Type) : Type :=
| Ok (a : A)
| Panic (msg : string)
| OutOfFuel.
Arguments Ok {A} a.
Arguments Panic {A} msg.
Arguments OutOfFuel {A}.

Definition rbind {A B : Type} (c : result A) (k : A -> result B) : result B :=
  match c with
  | Ok a => k a
  | Panic msg => Panic msg
  | OutOfFuel => OutOfFuel
  end.

Notation "'let*' x ':=' c 'in' k" := (rbind c (fun x => k))
  (at level 10, x pattern, c at level 100, k at level 200).

(** Monadic left fold: the body of a Go [for] loop run over its index range,
    stopping at the first panic. *)
Fixpoint foldM {A S : Type} (body : S -> A -> result S) (xs : list A) (s : S)
  : result S :=
  match xs with
  | [] => Ok s
  | x :: xs' => let* s' := body s x in foldM body xs' s'
  end.

(** ** strings.ToLower, on ASCII text *)

Definition lowerAscii (c : ascii) : ascii :=
  let n := nat_of_ascii c in
  if (65 <=? n)%nat && (n <=? 90)%nat then ascii_of_nat (n + 32) else c.

(** [strings.ToLower]: letters A-Z are mapped to a-z.  Bytes outside ASCII are
    left as they are (Go lowers them rune by rune); identifiers in this
    development are ASCII. *)
Fixpoint ToLower (s : string) : string :=
  match s with
  | EmptyString => EmptyString
  | String c s' => String (lowerAscii c) (ToLower s')
  end.

(** ** The reflect model *)

Module Reflect.

(** Kinds with neither fields nor a pointee this code looks at. *)
Inductive LeafKind : Type :=
| Bool | Int | Uint | Float64 | String_ | Interface | Func | Slice | Map | Chan | Array.

(** [reflect.Kind], as far as the code distinguishes it. *)
Inductive Kind : Type :=
| Ptr
| Struct
| Leaf (k : LeafKind).

(** [reflect.Type].  A struct type lists its fields in declaration order; a
    [reflect.StructField] carries its name, whether it is embedded, and its
    type. *)
Inductive rtype : Type :=
| TLeaf (k : LeafKind) (name : string)
| TPtr (elem : rtype)
| TStruct (name : string) (fields : list StructField)
with StructField : Type :=
| mkStructField (fieldName : string) (anonymous : bool) (fieldType : rtype).

Definition Anonymous (f : StructField) : bool :=
  match f with mkStructField _ a _ => a end.

Definition FieldType (f : StructField) : rtype :=
  match f with mkStructField _ _ t => t end.

Definition FieldName (f : StructField) : string :=
  match f with mkStructField n _ _ => n end.

Definition Type_Kind (t : rtype) : Kind :=
  match t with
  | TLeaf k _ => Leaf k
  | TPtr _ => Ptr
  | TStruct _ _ => Struct
  end.

(** [Type.Name]: the name of a defined type, empty for [*T]. *)
Definition Type_Name (t : rtype) : string :=
  match t with
  | TLeaf _ n => n
  | TPtr _ => ""
  | TStruct n _ => n
  end.

Definition PtrTo (t : rtype) : rtype := TPtr t.

Definition isPtr (t : rtype) : bool :=
  match t with TPtr _ => true | _ => false end.

Definition isStruct (t : rtype) : bool :=
  match t with TStruct _ _ => true | _ => false end.

(** [Type.NumField] and [Type.Field] panic unless the kind is Struct. *)
Definition Type_NumField (t : rtype) : result nat :=
  match t with
  | TStruct _ fs => Ok (List.length fs)
  | _ => Panic "reflect: NumField of non-struct type"
  end.

Definition Type_Field (t : rtype) (i : nat) : result StructField :=
  match t with
  | TStruct _ fs =>
      match nth_error fs i with
      | Some f => Ok f
      | None => Panic "reflect: Field index out of bounds"
      end
  | _ => Panic "reflect: Field of non-struct type"
  end.

Definition LeafKind_eqb (a b : LeafKind) : bool :=
  match a, b with
  | Bool, Bool | Int, Int | Uint, Uint | Float64, Float64 | String_, String_
  | Interface, Interface | Func, Func | Slice, Slice | Map, Map | Chan, Chan
  | Array, Array => true
  | _, _ => false
  end.

(** Identity of types, the [==] on [reflect.Type]. *)
Fixpoint rtype_eqb (a b : rtype) : bool :=
  match a, b with
  | TLeaf k n, TLeaf k' n' => LeafKind_eqb k k' && String.eqb n n'
  | TPtr e, TPtr e' => rtype_eqb e e'
  | TStruct n fs, TStruct n' fs' =>
      String.eqb n n' &&
      (fix fields_eqb (l l' : list StructField) {struct l} : bool :=
         match l, l' with
         | [], [] => true
         | mkStructField fn an ft :: r, mkStructField fn' an' ft' :: r' =>
             String.eqb fn fn' && Bool.eqb an an' && rtype_eqb ft ft'
             && fields_eqb r r'
         | _, _ => false
         end) fs fs'
  | _, _ => false
  end.

(** Number of type nodes of a type: the budget of the traversals below. *)
Fixpoint rtype_size (t : rtype) : nat :=
  match t with
  | TLeaf _ _ => 1
  | TPtr e => S (rtype_size e)
  | TStruct _ fs =>
      S ((fix fields_size (l : list StructField) : nat :=
            match l with
            | [] => 0
            | mkStructField _ _ ft :: r => rtype_size ft + fields_size r
            end) fs)
  end.

Definition fields_size (l : list StructField) : nat :=
  list_sum (List.map (fun f => rtype_size (FieldType f)) l).

(** The data a value holds.  [DNil] is the nil pointer, [DPtr d] a pointer
    to a variable holding [d]. *)
#[warnings="-register-all"]
Inductive data : Type :=
| DLeaf (z : Z)
| DNil
| DPtr (pointee : data)
| DStruct (fields : list data).

(** [reflect.Value]: [Invalid] is the zero Value; otherwise the value's
    type, whether it is addressable ([CanAddr]), and its data. *)
Inductive Value : Type :=
| Invalid
| Val (typ : rtype) (addressable : bool) (d : data).

(** The zero value of a type: nil for pointers, zero fields for structs. *)
Fixpoint Zero (t : rtype) : data :=
  match t with
  | TLeaf _ _ => DLeaf 0
  | TPtr _ => DNil
  | TStruct _ fs =>
      DStruct ((fix zeros (l : list StructField) : list data :=
                  match l with
                  | [] => []
                  | mkStructField _ _ ft :: r => Zero ft :: zeros r
                  end) fs)
  end.

(** [reflect.New(t)]: a non-nil pointer to a fresh zero value of [t]. *)
Definition New (t : rtype) : Value := Val (TPtr t) false (DPtr (Zero t)).

(** [Value.Type] panics on the zero Value. *)
Definition Value_Type (v : Value) : result rtype :=
  match v with
  | Invalid => Panic "reflect: call of reflect.Value.Type on zero Value"
  | Val t _ _ => Ok t
  end.

(** [Value.Elem] on a pointer: the zero Value for a nil pointer, otherwise
    the addressable pointee.  The source calls it only after testing for
    kind Ptr. *)
Definition Value_Elem (v : Value) : result Value :=
  match v with
  | Val (TPtr t) _ DNil => Ok Invalid
  | Val (TPtr t) _ (DPtr d) => Ok (Val t true d)
  | _ => Panic "reflect: call of reflect.Value.Elem on non-pointer Value"
  end.

(** [Value.NumField] panics unless the kind is Struct. *)
Definition Value_NumField (v : Value) : result nat :=
  match v with
  | Val (TStruct _ fs) _ _ => Ok (List.length fs)
  | _ => Panic "reflect: call of reflect.Value.NumField on non-struct Value"
  end.

(** [Value.Field(i)] panics unless the kind is Struct and [i] is in range;
    the field of an addressable struct is addressable. *)
Definition Value_Field (v : Value) (i : nat) : result Value :=
  match v with
  | Val (TStruct _ fs) a (DStruct ds) =>
      match nth_error fs i, nth_error ds i with
      | Some f, Some d => Ok (Val (FieldType f) a d)
      | _, _ => Panic "reflect: Field index out of range"
      end
  | _ => Panic "reflect: call of reflect.Value.Field on non-struct Value"
  end.

(** [Value.Addr] panics unless the value is addressable. *)
Definition Value_Addr (v : Value) : result Value :=
  match v with
  | Val t true d => Ok (Val (TPtr t) false (DPtr d))
  | _ => Panic "reflect.Value.Addr of unaddressable value"
  end.

End Reflect.
Import Reflect.

(** ** Data of controller_type.go *)

(** A [reflect.Value] of kind Func, kept opaque: what calling it does is the
    table [Call] of the section below. *)
Definition FuncRef : Type := nat.

(** [reflect.Method], as [Type.Method(i)] returns it: the name, the output
    types of the method's signature, and the function. *)
Record Method : Type := mkMethod {
  mName : string;
  mOut : list rtype;
  mFunc : FuncRef
}.

(** A [*Module]; [nil] is modelled by [None] where a pointer may be nil. *)
Definition ModuleRef : Type := nat.

Record FunctionalAnnotation : Type := mkFunctionalAnnotation {
  faName : string;
  faData : gmap string string
}.

Definition FunctionalAnnotations : Type := list FunctionalAnnotation.

Record ControllerFieldPath : Type := mkControllerFieldPath {
  IsPointer : bool;
  FieldIndexPath : list nat;
  FunctionCall : FuncRef;
  cfpAnnotations : FunctionalAnnotations
}.

Record ControllerTypeEvents : Type := mkControllerTypeEvents {
  Before : list ControllerFieldPath;
  After : list ControllerFieldPath;
  Finally : list ControllerFieldPath;
  Panic_ : list ControllerFieldPath
}.

Record MethodArg : Type := mkMethodArg {
  argName : string;
  argType : rtype
}.

Record MethodType : Type := mkMethodType {
  Name : string;
  Args : list MethodArg;
  RenderArgNames : gmap Z (list string);
  lowerName : string;
  Index : Z;
  mtAnnotations : FunctionalAnnotations
}.

Record ControllerType : Type := mkControllerType {
  Namespace : string;
  ModuleSource : ModuleRef;
  Type_ : rtype;
  Methods : list MethodType;
  ControllerIndexes : list (list nat);
  ControllerEvents : ControllerTypeEvents;
  ctAnnotations : FunctionalAnnotations
}.

(** A line written to [controllerLog]. *)
Inductive LogEntry : Type :=
| LogError (msg : string)
| LogDebug (msg : string).

(** The state [AddControllerType] works on: the [ControllerContainer] map,
    the controller list of every module, and the log. *)
Record Registry : Type := mkRegistry {
  controllers : gmap string ControllerType;
  moduleControllers : gmap ModuleRef (list ControllerType);
  controllerLog : list LogEntry
}.

(** The node of the breadth-first queue of [findControllers]. *)
Record nodeType : Type := mkNode {
  val : Value;
  index : list nat
}.

Definition newFieldPath (isPointer : bool) (value : FuncRef) (fieldPath : list nat)
  : ControllerFieldPath :=
  {| IsPointer := isPointer; FieldIndexPath := fieldPath; FunctionCall := value;
     cfpAnnotations := [] |}.

Definition emptyEvents : ControllerTypeEvents :=
  {| Before := []; After := []; Finally := []; Panic_ := [] |}.

(** [ControllerType.ShortName] and [ControllerType.Name]. *)
Definition ShortName (ct : ControllerType) : string := ToLower (Type_Name (Type_ ct)).

Definition ControllerType_Name (ct : ControllerType) : string := Namespace ct ++ ShortName ct.

(** [ControllerType.Method]: the first method whose [lowerName] is the
    lowered [name]; [None] is the nil result. *)
Definition ControllerType_Method (ct : ControllerType) (name : string) : option MethodType :=
  let lower := ToLower name in
  List.find (fun method => String.eqb (lowerName method) lower) (Methods ct).

Section ControllerType.

(** What the file takes from the rest of the package and from reflection:
    the method set of each type ([Type.NumMethod], [Type.Method]), the
    package variables [controllerPtrType] and [appModule], the value of
    [Module.Namespace], and the effect of calling a function value. *)
Variable MethodSet : rtype -> list Method.
Variable controllerPtrType : rtype.
Variable appModule : ModuleRef.
Variable ModuleNamespace : ModuleRef -> string.
Variable Call : FuncRef -> list Value -> result (list Value).

(** *** Lifecycle hooks: [ControllerTypeEvents.check] *)

(** The test of line 120: two outputs, the second of the examined type. *)
Definition returnsController (m : Method) (checkType : rtype) : bool :=
  (List.length (mOut m) =? 2)%nat &&
  match nth_error (mOut m) 1 with
  | Some t => rtype_eqb t checkType
  | None => false
  end.

(** The [switch strings.ToLower(m.Name)] of lines 127-136. *)
Definition addEvent (cte : ControllerTypeEvents) (name : string)
    (controllerFieldPath : ControllerFieldPath) : ControllerTypeEvents :=
  let lower := ToLower name in
  if String.eqb lower "before" then
    {| Before := controllerFieldPath :: Before cte; After := After cte;
       Finally := Finally cte; Panic_ := Panic_ cte |}
  else if String.eqb lower "after" then
    {| Before := Before cte; After := After cte ++ [controllerFieldPath];
       Finally := Finally cte; Panic_ := Panic_ cte |}
  else if String.eqb lower "panic" then
    {| Before := Before cte; After := After cte;
       Finally := Finally cte; Panic_ := Panic_ cte ++ [controllerFieldPath] |}
  else if String.eqb lower "finally" then
    {| Before := Before cte; After := After cte;
       Finally := Finally cte ++ [controllerFieldPath]; Panic_ := Panic_ cte |}
  else cte.

(** The body of the loop over the methods of [checkType].  The Debug lines
    of lines 121-125 write to the log only and are left out. *)
Definition checkMethod (checkType : rtype) (fieldPath : list nat)
    (cte : ControllerTypeEvents) (m : Method) : ControllerTypeEvents :=
  if returnsController m checkType then
    addEvent cte (mName m) (newFieldPath (isPtr checkType) (mFunc m) fieldPath)
  else cte.

(** The closure [typeChecker]: methods are visited in index order. *)
Definition typeChecker (checkType : rtype) (fieldPath : list nat)
    (cte : ControllerTypeEvents) : ControllerTypeEvents :=
  fold_left (checkMethod checkType fieldPath) (MethodSet checkType) cte.

(** [check]: both forms of the type, then every field of kind Struct, with
    the field's index appended to the path.  [theType.NumField()] panics on
    a type that is not a struct. *)
Fixpoint check (theType : rtype) (fieldPath : list nat) (cte : ControllerTypeEvents)
    {struct theType} : result ControllerTypeEvents :=
  let cte := typeChecker theType fieldPath cte in
  let cte := typeChecker (PtrTo theType) fieldPath cte in
  match theType with
  | TStruct _ fields =>
      (fix fieldLoop (fs : list StructField) (i : nat) (cte : ControllerTypeEvents)
           {struct fs} : result ControllerTypeEvents :=
         match fs with
         | [] => Ok cte
         | mkStructField _ _ vType :: rest =>
             match vType with
             | TStruct _ _ =>
                 let* cte' := check vType (fieldPath ++ [i]) cte in
                 fieldLoop rest (S i) cte'
             | _ => fieldLoop rest (S i) cte
             end
         end) fields 0%nat cte
  | _ => Panic "reflect: NumField of non-struct type"
  end.

Definition NewControllerTypeEvents (controllerType : rtype)
  : result ControllerTypeEvents :=
  check controllerType [] emptyEvents.

(** *** Replaying a field path: [ControllerFieldPath.Invoke] *)

(** One turn of the loop of lines 161-168. *)
Definition invokeStep (value : Value) (index : nat) : result Value :=
  let* t := Value_Type value in
  if isPtr t then
    let* e := Value_Elem value in Value_Field e index
  else Value_Field value index.

(** Lines 169-173. *)
Definition adjustReceiver (isPointer : bool) (value : Value) : result Value :=
  if isPointer then
    let* t := Value_Type value in
    if negb (isPtr t) then Value_Addr value else Ok value
  else
    let* t := Value_Type value in
    if isPtr t then Value_Elem value else Ok value.

Definition Invoke (fieldPath : ControllerFieldPath) (value : Value)
    (input : list Value) : result (list Value) :=
  let* value := foldM invokeStep (FieldIndexPath fieldPath) value in
  let* value := adjustReceiver (IsPointer fieldPath) value in
  Call (FunctionCall fieldPath) ([value] ++ input).

(** *** Embedded controllers: [findControllers] *)

(** Lines 189-197: the node's value and type, through the pointer if the
    value is one. *)
Definition derefNode (node : nodeType) : result (Value * rtype) :=
  let elem := val node in
  let* elemType := Value_Type elem in
  if isPtr elemType then
    let* elem := Value_Elem elem in
    let* elemType := Value_Type elem in
    Ok (elem, elemType)
  else Ok (elem, elemType).

(** The body of the loop over the fields, lines 208-224. *)
Definition fieldStep (node : nodeType) (elem : Value) (elemType : rtype)
    (st : list nodeType * list (list nat)) (i : nat)
  : result (list nodeType * list (list nat)) :=
  let (queue, indexes) := st in
  let* structField := Type_Field elemType i in
  if negb (Anonymous structField) then Ok (queue, indexes)
  else
    let* fieldValue := Value_Field elem i in
    let fieldType := FieldType structField in
    if rtype_eqb fieldType controllerPtrType then
      Ok (queue, indexes ++ [index node ++ [i]])
    else
      Ok (queue ++ [ {| val := fieldValue; index := [] ++ index node ++ [i] |} ],
          indexes).

(** The [for len(queue) > 0] loop; every turn dequeues one node and costs
    one unit of [fuel]. *)
Fixpoint findLoop (fuel : nat) (queue : list nodeType) (indexes : list (list nat))
  : result (list (list nat)) :=
  match queue with
  | [] => Ok indexes
  | node :: queue =>
      match fuel with
      | O => OutOfFuel
      | S fuel =>
          let* (elem, elemType) := derefNode node in
          if negb (isStruct elemType) then findLoop fuel queue indexes
          else
            let* n := Value_NumField elem in
            let* (queue, indexes) :=
              foldM (fieldStep node elem elemType) (seq 0 n) (queue, indexes) in
            findLoop fuel queue indexes
      end
  end.

(** [findControllers].  The budget is the number of type nodes of the
    queued pointer; [findControllers_returns] shows it is never used up. *)
Definition findControllers (appControllerType : rtype) : result (list (list nat)) :=
  let appControllerPtr := New appControllerType in
  let queue := [ {| val := appControllerPtr; index := [] |} ] in
  findLoop (rtype_size (PtrTo appControllerType)) queue [].

(** *** The registry: [ControllerContainer.AddControllerType] *)

(** Modelled from the spec: [Module.AddController], which is not part of
    this file; the registration "also adds it to the module list of
    controllers", so the controller is appended to the list of its module. *)
Definition AddController (m : ModuleRef) (ct : ControllerType)
    (mods : gmap ModuleRef (list ControllerType))
  : gmap ModuleRef (list ControllerType) :=
  <[ m := default [] (mods !! m) ++ [ct] ]> mods.

Definition AddControllerType (c : Registry) (moduleSource : option ModuleRef)
    (controllerType : rtype) (methods : list MethodType)
  : result (ControllerType * Registry) :=
  let moduleSource :=
    match moduleSource with
    | None => appModule
    | Some m => m
    end in
  let* controllerIndexes := findControllers controllerType in
  let* events := NewControllerTypeEvents controllerType in
  let newControllerType :=
    {| Namespace := ModuleNamespace moduleSource;
       ModuleSource := moduleSource;
       Type_ := controllerType;
       Methods := methods;
       ControllerIndexes := controllerIndexes;
       ControllerEvents := events;
       ctAnnotations := [] |} in
  let controllerName := ControllerType_Name newControllerType in
  let c :=
    match controllers c !! controllerName with
    | None =>
        let ctrls := <[ controllerName := newControllerType ]> (controllers c) in
        let mods :=
          AddController (ModuleSource newControllerType) newControllerType
            (moduleControllers c) in
        let ctrls :=
          if Nat.eqb (ModuleSource newControllerType) appModule
          then <[ ShortName newControllerType := newControllerType ]> ctrls
          else ctrls in
        {| controllers := ctrls; moduleControllers := mods;
           controllerLog := controllerLog c |}
    | Some _ =>
        {| controllers := controllers c; moduleControllers := moduleControllers c;
           controllerLog := controllerLog c ++
             [LogError ("Error, attempt to register duplicate controller as "
                        ++ controllerName)] |}
    end in
  let c :=
    {| controllers := controllers c; moduleControllers := moduleControllers c;
       controllerLog := controllerLog c ++
         [LogDebug ("Registered controller: " ++ controllerName)] |} in
  Ok (newControllerType, c).


(** *** Reference definitions the theorems compare the code with *)

(** The four lists of a [ControllerTypeEvents]. *)
Inductive Bucket : Type := OnBefore | OnAfter | OnPanic | OnFinally.

Definition Bucket_eqb (a b : Bucket) : bool :=
  match a, b with
  | OnBefore, OnBefore | OnAfter, OnAfter | OnPanic, OnPanic
  | OnFinally, OnFinally => true
  | _, _ => false
  end.

(** The bucket a method name belongs to, compared without case. *)
Definition classify (name : string) : option Bucket :=
  let lower := ToLower name in
  if String.eqb lower "before" then Some OnBefore
  else if String.eqb lower "after" then Some OnAfter
  else if String.eqb lower "panic" then Some OnPanic
  else if String.eqb lower "finally" then Some OnFinally
  else None.

(** The structural components hook discovery visits, in the order it
    reaches them: the type itself, then, field by field, every component of
    kind Struct with the field index appended to the path. *)
Fixpoint visited (t : rtype) (path : list nat) {struct t} : list (rtype * list nat) :=
  (t, path) ::
  match t with
  | TStruct _ fields =>
      (fix fieldVisits (fs : list StructField) (i : nat) {struct fs}
         : list (rtype * list nat) :=
         match fs with
         | [] => []
         | mkStructField _ _ vType :: rest =>
             match vType with
             | TStruct _ _ => visited vType (path ++ [i]) ++ fieldVisits rest (S i)
             | _ => fieldVisits rest (S i)
             end
         end) fields 0%nat
  | _ => []
  end.

(** The type forms examined for methods, in order: at every visited
    component the value form, then the pointer form. *)
Definition formsOf (c : rtype * list nat) : list (rtype * list nat) :=
  let '(u, q) := c in [(u, q); (PtrTo u, q)].

Definition examined (t : rtype) (path : list nat) : list (rtype * list nat) :=
  flat_map formsOf (visited t path).

(** The hooks one examined form contributes, in method order. *)
Definition hooksOf (form : rtype * list nat) : list (Bucket * ControllerFieldPath) :=
  let '(checkType, path) := form in
  flat_map (fun m =>
    if returnsController m checkType then
      match classify (mName m) with
      | Some b => [(b, newFieldPath (isPtr checkType) (mFunc m) path)]
      | None => []
      end
    else []) (MethodSet checkType).

(** The discovery sequence of a type: every hook, in the order found. *)
Definition discovered (t : rtype) (path : list nat) : list (Bucket * ControllerFieldPath) :=
  flat_map hooksOf (examined t path).

(** The hooks of one bucket within a discovery sequence, order kept. *)
Definition inBucket (b : Bucket) (d : list (Bucket * ControllerFieldPath))
  : list ControllerFieldPath :=
  List.map snd (List.filter (fun e => Bucket_eqb (fst e) b) d).

(** Storing a discovery sequence: Before entries go to the front one by
    one, the others to the end. *)
Definition stored (d : list (Bucket * ControllerFieldPath)) (cte : ControllerTypeEvents)
  : ControllerTypeEvents :=
  {| Before := rev (inBucket OnBefore d) ++ Before cte;
     After := After cte ++ inBucket OnAfter d;
     Finally := Finally cte ++ inBucket OnFinally d;
     Panic_ := Panic_ cte ++ inBucket OnPanic d |}.


(** The embedded occurrences of the controller type in a type, as index
    paths: through anonymous fields only, through pointers to their
    pointed-to type, never below an occurrence. *)
Fixpoint embeddedPaths (t : rtype) {struct t} : list (list nat) :=
  match t with
  | TLeaf _ _ => []
  | TPtr e => embeddedPaths e
  | TStruct _ fields =>
      (fix fieldPaths (fs : list StructField) (i : nat) {struct fs} : list (list nat) :=
         match fs with
         | [] => []
         | mkStructField _ anon ft :: rest =>
             (if anon then
                if rtype_eqb ft controllerPtrType then [[i]]
                else List.map (cons i) (embeddedPaths ft)
              else []) ++ fieldPaths rest (S i)
         end) fields 0%nat
  end.

(** Types the traversal of [findControllers] walks without meeting a nil
    pointer: a non-pointer type whose anonymous fields are of the
    controller type or, recursively, such types. *)
Fixpoint nilFree (t : rtype) {struct t} : bool :=
  match t with
  | TLeaf _ _ => true
  | TPtr _ => false
  | TStruct _ fields =>
      (fix fieldsNilFree (fs : list StructField) {struct fs} : bool :=
         match fs with
         | [] => true
         | mkStructField _ anon ft :: rest =>
             (negb anon || rtype_eqb ft controllerPtrType || nilFree ft)
             && fieldsNilFree rest
         end) fields
  end.


(** Navigation of [Invoke] in the words of its description: for each index
    descend one field, through the pointer first if the value is one. *)
Inductive Navigates : Value -> list nat -> Value -> Prop :=
| nav_done v : Navigates v [] v
| nav_pointer t a d i path v' w :
    Value_Field (Val t true d) i = Ok v' ->
    Navigates v' path w ->
    Navigates (Val (TPtr t) a (DPtr d)) (i :: path) w
| nav_direct t a d i path v' w :
    isPtr t = false ->
    Value_Field (Val t a d) i = Ok v' ->
    Navigates v' path w ->
    Navigates (Val t a d) (i :: path) w.

(** The receiver in the form the method needs. *)
Inductive Normalizes : bool -> Value -> Value -> Prop :=
| norm_take_address t d :
    isPtr t = false ->
    Normalizes true (Val t true d) (Val (TPtr t) false (DPtr d))
| norm_keep_pointer t a d :
    Normalizes true (Val (TPtr t) a d) (Val (TPtr t) a d)
| norm_dereference t a d :
    Normalizes false (Val (TPtr t) a (DPtr d)) (Val t true d)
| norm_nil t a :
    Normalizes false (Val (TPtr t) a DNil) Invalid
| norm_keep_value t a d :
    isPtr t = false ->
    Normalizes false (Val t a d) (Val t a d).

End ControllerType.

(** ** Definitions the proofs work with *)

Section rtype_induction.
Variable P : rtype -> Prop.
Hypothesis Hleaf : forall k n, P (TLeaf k n).
Hypothesis Hptr : forall e, P e -> P (TPtr e).
Hypothesis Hstruct :
  forall n fs, Forall (fun f => P (FieldType f)) fs -> P (TStruct n fs).

(** Induction on types with the hypothesis available for every field. *)
Fixpoint rtype_nested_ind (t : rtype) : P t :=
  match t with
  | TLeaf k n => Hleaf k n
  | TPtr e => Hptr e (rtype_nested_ind e)
  | TStruct n fs =>
      Hstruct n fs
        ((fix all (l : list StructField) : Forall (fun f => P (FieldType f)) l :=
            match l with
            | [] => List.Forall_nil _
            | f :: r =>
                @List.Forall_cons _ (fun f => P (FieldType f)) f r
                  (match f return P (FieldType f) with
                   | mkStructField _ _ ft => rtype_nested_ind ft
                   end) (all r)
            end) fs)
  end.
End rtype_induction.

(** The comparison of field lists inside [rtype_eqb]. *)
Definition fields_eqb : list StructField -> list StructField -> bool :=
  fix fields_eqb (l l' : list StructField) {struct l} : bool :=
    match l, l' with
    | [], [] => true
    | mkStructField fn an ft :: r, mkStructField fn' an' ft' :: r' =>
        String.eqb fn fn' && Bool.eqb an an' && rtype_eqb ft ft' && fields_eqb r r'
    | _, _ => false
    end.



(** The loop of [check] over the fields, and the components it visits. *)
Definition checkFields (MethodSet : rtype -> list Method) (fieldPath : list nat)
  : list StructField -> nat -> ControllerTypeEvents -> result ControllerTypeEvents :=
  fix fieldLoop (fs : list StructField) (i : nat) (cte : ControllerTypeEvents)
      {struct fs} : result ControllerTypeEvents :=
    match fs with
    | [] => Ok cte
    | mkStructField _ _ vType :: rest =>
        match vType with
        | TStruct _ _ =>
            let* cte' := check MethodSet vType (fieldPath ++ [i]) cte in
            fieldLoop rest (S i) cte'
        | _ => fieldLoop rest (S i) cte
        end
    end.

Definition fieldVisits (path : list nat)
  : list StructField -> nat -> list (rtype * list nat) :=
  fix fieldVisits (fs : list StructField) (i : nat) {struct fs}
    : list (rtype * list nat) :=
    match fs with
    | [] => []
    | mkStructField _ _ vType :: rest =>
        match vType with
        | TStruct _ _ => visited vType (path ++ [i]) ++ fieldVisits rest (S i)
        | _ => fieldVisits rest (S i)
        end
    end.

(** What the components of a list of visits contribute. *)
Definition hooksAt (MethodSet : rtype -> list Method) (vs : list (rtype * list nat))
  : list (Bucket * ControllerFieldPath) :=
  flat_map (hooksOf MethodSet) (flat_map formsOf vs).

(** The descriptor [AddControllerType] builds. *)
Definition descriptorOf (ModuleNamespace : ModuleRef -> string) (m : ModuleRef)
    (controllerType : rtype)
    (methods : list MethodType) (indexes : list (list nat))
    (events : ControllerTypeEvents) : ControllerType :=
  {| Namespace := ModuleNamespace m; ModuleSource := m; Type_ := controllerType;
     Methods := methods; ControllerIndexes := indexes; ControllerEvents := events;
     ctAnnotations := [] |}.

(** A queued zero value. *)
Definition zeroNode (a : bool) (t : rtype) (path : list nat) : nodeType :=
  {| val := Val t a (Zero t); index := path |}.

(** What the loop over the fields of a zero struct value, from field [i]
    on, records and enqueues. *)
Fixpoint capsFrom (controllerPtrType : rtype) (path : list nat)
    (fs : list StructField) (i : nat) : list (list nat) :=
  match fs with
  | [] => []
  | f :: rest =>
      (if Anonymous f && rtype_eqb (FieldType f) controllerPtrType
       then [path ++ [i]] else [])
      ++ capsFrom controllerPtrType path rest (S i)
  end.

Fixpoint childrenFrom (controllerPtrType : rtype) (a : bool) (path : list nat)
    (fs : list StructField) (i : nat) : list nodeType :=
  match fs with
  | [] => []
  | f :: rest =>
      (if Anonymous f && negb (rtype_eqb (FieldType f) controllerPtrType)
       then [zeroNode a (FieldType f) (path ++ [i])] else [])
      ++ childrenFrom controllerPtrType a path rest (S i)
  end.

Definition nodeWeight (node : nodeType) : nat :=
  match val node with
  | Invalid => 1
  | Val t _ _ => rtype_size t
  end.

Definition queueWeight (queue : list nodeType) : nat :=
  list_sum (List.map nodeWeight queue).

Definition fieldPaths (controllerPtrType : rtype)
  : list StructField -> nat -> list (list nat) :=
  fix fieldPaths (fs : list StructField) (i : nat) {struct fs} : list (list nat) :=
    match fs with
    | [] => []
    | mkStructField _ anon ft :: rest =>
        (if anon then
           if rtype_eqb ft controllerPtrType then [[i]]
           else List.map (cons i) (embeddedPaths controllerPtrType ft)
         else []) ++ fieldPaths rest (S i)
    end.

Definition fieldsNilFree (controllerPtrType : rtype) : list StructField -> bool :=
  fix fieldsNilFree (fs : list StructField) {struct fs} : bool :=
    match fs with
    | [] => true
    | mkStructField _ anon ft :: rest =>
        (negb anon || rtype_eqb ft controllerPtrType || nilFree controllerPtrType ft)
        && fieldsNilFree rest
    end.

(** The occurrences below a queued node, with the node's path in front. *)
Definition nodePaths (controllerPtrType : rtype) (node : nodeType) : list (list nat) :=
  match val node with
  | Invalid => []
  | Val t _ _ => List.map (app (index node)) (embeddedPaths controllerPtrType t)
  end.

Definition goodNode (controllerPtrType : rtype) (node : nodeType) : Prop :=
  exists a t, val node = Val t a (Zero t) /\ nilFree controllerPtrType t = true.

Definition nilPointerNode (node : nodeType) : Prop :=
  exists u a, val node = Val (TPtr u) a DNil.

(** A queued zero value below which the walk meets a nil pointer. *)
Definition unsafeNode (controllerPtrType : rtype) (node : nodeType) : Prop :=
  exists a t, val node = Val t a (Zero t) /\ nilFree controllerPtrType t = false.

(** Data of the shape of a type: what an instance of the type holds. *)
Fixpoint hasType (t : rtype) (d : data) {struct t} : bool :=
  match t, d with
  | TLeaf _ _, DLeaf _ => true
  | TPtr _, DNil => true
  | TPtr e, DPtr d' => hasType e d'
  | TStruct _ fs, DStruct ds =>
      (fix fieldsHaveType (fs : list StructField) (ds : list data) {struct fs} : bool :=
         match fs, ds with
         | [], [] => true
         | mkStructField _ _ ft :: fs', d0 :: ds' =>
             hasType ft d0 && fieldsHaveType fs' ds'
         | _, _ => false
         end) fs ds
  | _, _ => false
  end.

Definition fieldsHaveType : list StructField -> list data -> bool :=
  fix fieldsHaveType (fs : list StructField) (ds : list data) {struct fs} : bool :=
    match fs, ds with
    | [], [] => true
    | mkStructField _ _ ft :: fs', d0 :: ds' =>
        hasType ft d0 && fieldsHaveType fs' ds'
    | _, _ => false
    end.





(** The map of controllers names its entries: every key is the name of the
    descriptor it leads to, or the bare short name of a descriptor of the
    application module. *)
Definition keysNamed (appModule : ModuleRef) (ctrls : gmap string ControllerType) : Prop :=
  forall k d,
    ctrls !! k = Some d ->
    k = ControllerType_Name d \/ (k = ShortName d /\ ModuleSource d = appModule).

(** Index paths in order of depth: no path is shorter than one before it. *)
Fixpoint levelOrdered (l : list (list nat)) : Prop :=
  match l with
  | [] => True
  | p :: rest =>
      Forall (fun q => (List.length p <= List.length q)%nat) rest /\ levelOrdered rest
  end.

(** ** Fixtures: concrete types, method sets and values *)

Module Fixtures.

Definition tString : rtype := TLeaf String_ "string".
Definition tInt : rtype := TLeaf Int "int".
Definition tResult : rtype := TLeaf Interface "Result".

(** The controller type and [controllerPtrType = reflect.TypeOf(&Controller{})]. *)
Definition Controller : rtype :=
  TStruct "Controller"
    [mkStructField "Name" false tString; mkStructField "Action" false tString].
Definition controllerPtr : rtype := TPtr Controller.

(** [type Base struct { *Controller; Count int }] *)
Definition Base : rtype :=
  TStruct "Base"
    [mkStructField "Controller" true controllerPtr; mkStructField "Count" false tInt].

(** [type App struct { Title string; Base }]: one controller, at depth 2. *)
Definition App : rtype :=
  TStruct "App" [mkStructField "Title" false tString; mkStructField "Base" true Base].

(** [type Twice struct { Base; *Controller }]: depth 2 and depth 1. *)
Definition Twice : rtype :=
  TStruct "Twice"
    [mkStructField "Base" true Base; mkStructField "Controller" true controllerPtr].

(** [type PtrApp struct { *Base }]: the controller behind an embedded
    pointer to a struct. *)
Definition PtrApp : rtype := TStruct "PtrApp" [mkStructField "Base" true (TPtr Base)].

(** [type Helper struct { Hits int }] and [type Lone struct { *Helper }]:
    no controller anywhere. *)
Definition Helper : rtype := TStruct "Helper" [mkStructField "Hits" false tInt].
Definition Lone : rtype := TStruct "Lone" [mkStructField "Helper" true (TPtr Helper)].

(** [type Plain struct { Result; Named Base; int }]: an embedded interface,
    a named struct field holding a controller, an embedded int. *)
Definition Plain : rtype :=
  TStruct "Plain"
    [mkStructField "Result" true tResult; mkStructField "Named" false Base;
     mkStructField "int" true tInt].

(** Hooks.  [Inner] declares Before and After on the value form; [Outer]
    embeds [Inner], declares Before and After on the value form, Finally on
    the pointer form, and an action Index.  Method sets are listed as
    reflection does, sorted by name, the pointer form including the value
    form's methods. *)
Definition Inner : rtype := TStruct "Inner" [mkStructField "Depth" false tInt].
Definition Outer : rtype :=
  TStruct "Outer" [mkStructField "Label" false tString; mkStructField "Inner" true Inner].

Definition innerMethods : list Method :=
  [ {| mName := "After"; mOut := [tResult; Inner]; mFunc := 10 |};
    {| mName := "Before"; mOut := [tResult; Inner]; mFunc := 11 |} ].

Definition outerMethods : list Method :=
  [ {| mName := "After"; mOut := [tResult; Outer]; mFunc := 20 |};
    {| mName := "Before"; mOut := [tResult; Outer]; mFunc := 21 |};
    {| mName := "Index"; mOut := [tResult]; mFunc := 22 |} ].

Definition outerPtrMethods : list Method :=
  [ {| mName := "After"; mOut := [tResult; Outer]; mFunc := 20 |};
    {| mName := "Before"; mOut := [tResult; Outer]; mFunc := 21 |};
    {| mName := "Finally"; mOut := [tResult; TPtr Outer]; mFunc := 23 |};
    {| mName := "Index"; mOut := [tResult]; mFunc := 22 |} ].

Definition methodSet (t : rtype) : list Method :=
  if rtype_eqb t Inner then innerMethods
  else if rtype_eqb t (TPtr Inner) then innerMethods
  else if rtype_eqb t Outer then outerMethods
  else if rtype_eqb t (TPtr Outer) then outerPtrMethods
  else [].

(** A live [*Outer] as [reflect.ValueOf] gives it, and a callable that
    returns its arguments. *)
Definition outerData : data := DStruct [DLeaf 7; DStruct [DLeaf 3]].
Definition outerPtrValue : Value := Val (TPtr Outer) false (DPtr outerData).
Definition echo (f : FuncRef) (args : list Value) : result (list Value) := Ok args.

(** Modules: the application module and one other. *)
Definition appModule : ModuleRef := 0%nat.
Definition otherModule : ModuleRef := 1%nat.
Definition moduleNamespace (m : ModuleRef) : string :=
  if Nat.eqb m appModule then "app|" else "jobs|".

Definition emptyRegistry : Registry :=
  {| controllers := ∅; moduleControllers := ∅; controllerLog := [] |}.

Definition indexMethod : MethodType :=
  {| Name := "Index"; Args := []; RenderArgNames := ∅; lowerName := "index";
     Index := 0%Z; mtAnnotations := [] |}.
Definition showMethod : MethodType :=
  {| Name := "Show"; Args := []; RenderArgNames := ∅; lowerName := "show";
     Index := 1%Z; mtAnnotations := [] |}.

(** The descriptor of [App] as the application module registers it, and a
    registry that already holds it under its name and its short name. *)
Definition appDescriptor : ControllerType :=
  {| Namespace := "app|"; ModuleSource := appModule; Type_ := App;
     Methods := [showMethod; indexMethod]; ControllerIndexes := [[1; 0]]%nat;
     ControllerEvents := emptyEvents; ctAnnotations := [] |}.

Definition takenRegistry : Registry :=
  {| controllers := <[ "app" := appDescriptor ]> {[ "app|app" := appDescriptor ]};
     moduleControllers := {[ appModule := [appDescriptor] ]};
     controllerLog := [] |}.

(** Two types whose names differ only in case, and a value of [PtrApp]
    whose embedded pointer is nil. *)
Definition Foo : rtype := TStruct "Foo" [mkStructField "Controller" true controllerPtr].
Definition FOO : rtype := TStruct "FOO" [mkStructField "Count" false tInt].
Definition ptrAppValue : Value := Val (TPtr PtrApp) false (DPtr (DStruct [DNil])).

End Fixtures.

(** ** Facts about the reflect model *)


Lemma LeafKind_eqb_eq a b : LeafKind_eqb a b = true <-> a = b.
Proof. split; [destruct a, b; simpl; congruence | intros ->; destruct b; reflexivity]. Qed.

Lemma rtype_eqb_eq a b : rtype_eqb a b = true <-> a = b.
Proof.
  revert b. induction a as [k n | e IH | n fs IH] using rtype_nested_ind;
    intros [k' n' | e' | n' fs']; simpl; try (split; congruence).
  - rewrite andb_true_iff, LeafKind_eqb_eq, String.eqb_eq.
    split; [intros [-> ->]; reflexivity | intros [= -> ->]; auto].
  - rewrite IH. split; congruence.
  - change (String.eqb n n' && fields_eqb fs fs' = true <-> TStruct n fs = TStruct n' fs').
    rewrite andb_true_iff, String.eqb_eq.
    assert (Hfs : fields_eqb fs fs' = true <-> fs = fs').
    { clear n n'. revert fs'. induction IH as [| [fn an ft] r Hf _ IHr];
        intros [| [fn' an' ft'] r']; simpl; try (split; congruence).
      simpl in Hf.
      rewrite !andb_true_iff, String.eqb_eq, Bool.eqb_true_iff, (Hf ft'), IHr.
      split; [intros [[[-> ->] ->] ->]; reflexivity | intros [= -> -> -> ->]; auto]. }
    rewrite Hfs. split; [intros [-> ->]; reflexivity | intros [= -> ->]; auto].
Qed.


Lemma rtype_eqb_neq a b : rtype_eqb a b = false <-> a <> b.
Proof.
  rewrite <- rtype_eqb_eq. destruct (rtype_eqb a b); split; congruence.
Qed.

Lemma Zero_struct n fs :
  Zero (TStruct n fs) = DStruct (List.map (fun f => Zero (FieldType f)) fs).
Proof.
  simpl. f_equal. induction fs as [| [fn an ft] r IH]; simpl; [reflexivity |].
  f_equal. exact IH.
Qed.

Lemma rtype_size_struct n fs : rtype_size (TStruct n fs) = S (fields_size fs).
Proof.
  simpl. f_equal. unfold fields_size.
  induction fs as [| [fn an ft] r IH]; simpl; [reflexivity |].
  f_equal. exact IH.
Qed.

Lemma rtype_size_pos t : (0 < rtype_size t)%nat.
Proof. destruct t; simpl; lia. Qed.

(** The field of a zero struct value is the zero value of the field's type. *)
Lemma Value_Field_Zero n fs a i f :
  nth_error fs i = Some f ->
  Value_Field (Val (TStruct n fs) a (Zero (TStruct n fs))) i
  = Ok (Val (FieldType f) a (Zero (FieldType f))).
Proof.
  intros Hf. rewrite Zero_struct. unfold Value_Field.
  rewrite Hf, nth_error_map, Hf. reflexivity.
Qed.

(** ** Hook discovery *)

Section HookDiscovery.

Variable MethodSet : rtype -> list Method.

Local Abbreviation hooksIn := (hooksAt MethodSet).

Local Arguments check : simpl never.
Local Arguments visited : simpl never.

Lemma check_struct n fs path cte :
  check MethodSet (TStruct n fs) path cte
  = checkFields MethodSet path fs 0
      (typeChecker MethodSet (PtrTo (TStruct n fs)) path
         (typeChecker MethodSet (TStruct n fs) path cte)).
Proof. reflexivity. Qed.

Lemma visited_struct n fs path :
  visited (TStruct n fs) path = (TStruct n fs, path) :: fieldVisits path fs 0.
Proof. reflexivity. Qed.

Lemma checkFields_struct path fn an n fs rest i cte :
  checkFields MethodSet path (mkStructField fn an (TStruct n fs) :: rest) i cte
  = let* cte' := check MethodSet (TStruct n fs) (path ++ [i]) cte in
    checkFields MethodSet path rest (S i) cte'.
Proof. reflexivity. Qed.

Lemma fieldVisits_struct path fn an n fs rest i :
  fieldVisits path (mkStructField fn an (TStruct n fs) :: rest) i
  = visited (TStruct n fs) (path ++ [i]) ++ fieldVisits path rest (S i).
Proof. reflexivity. Qed.

Lemma inBucket_app b d1 d2 : inBucket b (d1 ++ d2) = inBucket b d1 ++ inBucket b d2.
Proof. unfold inBucket. rewrite List.filter_app, List.map_app. reflexivity. Qed.

Lemma stored_nil cte : stored [] cte = cte.
Proof.
  destruct cte; unfold stored, inBucket; simpl. rewrite !app_nil_r. reflexivity.
Qed.

Lemma stored_app d1 d2 cte : stored (d1 ++ d2) cte = stored d2 (stored d1 cte).
Proof.
  unfold stored; simpl. rewrite !inBucket_app, rev_app_distr, <- !app_assoc.
  reflexivity.
Qed.

Lemma addEvent_stored cte name fp :
  addEvent cte name fp
  = match classify name with
    | Some b => stored [(b, fp)] cte
    | None => cte
    end.
Proof.
  unfold addEvent, classify.
  destruct (String.eqb (ToLower name) "before"); [destruct cte; unfold stored; simpl; rewrite ?app_nil_r; reflexivity |].
  destruct (String.eqb (ToLower name) "after"); [destruct cte; unfold stored; simpl; rewrite ?app_nil_r; reflexivity |].
  destruct (String.eqb (ToLower name) "panic"); [destruct cte; unfold stored; simpl; rewrite ?app_nil_r; reflexivity |].
  destruct (String.eqb (ToLower name) "finally"); [destruct cte; unfold stored; simpl; rewrite ?app_nil_r; reflexivity |].
  reflexivity.
Qed.

Lemma typeChecker_stored checkType path cte :
  typeChecker MethodSet checkType path cte
  = stored (hooksOf MethodSet (checkType, path)) cte.
Proof.
  unfold typeChecker, hooksOf.
  generalize (MethodSet checkType) as ms. intros ms. revert cte.
  induction ms as [| m ms IH]; intros cte; simpl.
  - symmetry. apply stored_nil.
  - rewrite IH, stored_app. f_equal.
    unfold checkMethod. destruct (returnsController m checkType).
    + rewrite addEvent_stored. destruct (classify (mName m)); [reflexivity |].
      symmetry. apply stored_nil.
    + symmetry. apply stored_nil.
Qed.

Lemma hooksAt_app v1 v2 : hooksIn (v1 ++ v2) = hooksIn v1 ++ hooksIn v2.
Proof. unfold hooksIn. rewrite !flat_map_app. reflexivity. Qed.

Lemma hooksAt_cons u q vs :
  hooksIn ((u, q) :: vs)
  = hooksOf MethodSet (u, q) ++ hooksOf MethodSet (PtrTo u, q) ++ hooksIn vs.
Proof.
  unfold hooksIn. cbn [flat_map formsOf app]. reflexivity.
Qed.

Lemma discovered_eq t path : discovered MethodSet t path = hooksIn (visited t path).
Proof. reflexivity. Qed.

(** [check] stores the discovery sequence of the type, and returns, on
    every type of kind Struct. *)
Lemma check_stored t :
  isStruct t = true ->
  forall path cte,
    check MethodSet t path cte = Ok (stored (discovered MethodSet t path) cte).
Proof.
  induction t as [k n | e _ | n fs IH] using rtype_nested_ind;
    intros Hs path cte; try discriminate Hs.
  rewrite check_struct, discovered_eq, visited_struct, hooksAt_cons.
  rewrite !stored_app, <- !typeChecker_stored.
  generalize (typeChecker MethodSet (PtrTo (TStruct n fs)) path
                (typeChecker MethodSet (TStruct n fs) path cte)) as cte0.
  generalize 0%nat as i.
  clear Hs cte.
  induction IH as [| [fn an ft] rest Hf _ IHrest]; intros i cte0.
  - simpl. change (hooksIn []) with (@nil (Bucket * ControllerFieldPath)).
    rewrite stored_nil. reflexivity.
  - destruct ft as [k' n' | e' | n' fs']; [apply IHrest | apply IHrest |].
    simpl in Hf. rewrite checkFields_struct, fieldVisits_struct, (Hf eq_refl).
    cbn [rbind]. rewrite IHrest, hooksAt_app, stored_app, <- discovered_eq.
    reflexivity.
Qed.

Lemma visited_path_length t :
  forall path u q, In (u, q) (visited t path) -> (List.length path <= List.length q)%nat.
Proof.
  induction t as [k n | e _ | n fs IH] using rtype_nested_ind; intros path u q.
  - simpl. intros [[= <- <-] | []]. lia.
  - simpl. intros [[= <- <-] | []]. lia.
  - rewrite visited_struct. intros [[= <- <-] | Hin]; [lia |].
    revert Hin. generalize 0%nat as i.
    induction IH as [| [fn an ft] rest Hf _ IHrest]; intros i; [simpl; tauto |].
    destruct ft as [k' n' | e' | n' fs']; [apply IHrest | apply IHrest |].
    rewrite fieldVisits_struct, in_app_iff. intros [Hin | Hin]; [| eapply IHrest; eassumption].
    apply Hf in Hin. rewrite length_app in Hin. simpl in Hin. lia.
Qed.

Lemma fieldVisits_nested path fs i u q :
  In (u, q) (fieldVisits path fs i) -> q <> [].
Proof.
  revert i. induction fs as [| [fn an ft] rest IH]; intros i; [simpl; tauto |].
  destruct ft as [k' n' | e' | n' fs']; [apply IH | apply IH |].
  rewrite fieldVisits_struct, in_app_iff. intros [Hin | Hin]; [| eapply IH; eassumption].
  apply visited_path_length in Hin. rewrite length_app in Hin. simpl in Hin.
  destruct q; [simpl in Hin; lia | discriminate].
Qed.

Lemma hooksOf_path u q b fp :
  In (b, fp) (hooksOf MethodSet (u, q)) -> FieldIndexPath fp = q.
Proof.
  unfold hooksOf. rewrite in_flat_map. intros (m & _ & Hin).
  destruct (returnsController m u); [| destruct Hin].
  destruct (classify (mName m)); [| destruct Hin].
  destruct Hin as [[= _ <-] | []]. reflexivity.
Qed.

Lemma hooksAt_path vs b fp :
  In (b, fp) (hooksIn vs) -> exists u, In (u, FieldIndexPath fp) vs.
Proof.
  unfold hooksIn. rewrite in_flat_map. intros ([u q] & Hform & Hin).
  apply hooksOf_path in Hin. subst q.
  apply in_flat_map in Hform. destruct Hform as ([u' q'] & Hv & Hf).
  simpl in Hf. destruct Hf as [[= <- <-] | [[= <- <-] | []]]; eauto.
Qed.







Lemma addEvent_front_or_end cte name fp :
  (ToLower name = "before" -> Before (addEvent cte name fp) = fp :: Before cte) /\
  (ToLower name = "after" -> After (addEvent cte name fp) = After cte ++ [fp]) /\
  (ToLower name = "panic" -> Panic_ (addEvent cte name fp) = Panic_ cte ++ [fp]) /\
  (ToLower name = "finally" -> Finally (addEvent cte name fp) = Finally cte ++ [fp]).
Proof.
  unfold addEvent. repeat split; intros ->; reflexivity.
Qed.

(** C1.  On every type of kind Struct, hook discovery returns, and the
    [Before] list is the discovery sequence's Before hooks reversed, while
    [After], [Panic] and [Finally] keep the order of discovery: every hook
    found is put at the front of [Before] or at the end of its other list.
    The sequence splits into the hooks of the type itself (empty path) and,
    after them, those of its nested components (non-empty path), so in
    [Before] the nested hooks precede the type's own and in [After] they
    follow them. *)
Theorem before_reversed_others_in_order (t : rtype) :
  isStruct t = true ->
  (forall cte name fp,
     (ToLower name = "before" -> Before (addEvent cte name fp) = fp :: Before cte) /\
     (ToLower name = "after" -> After (addEvent cte name fp) = After cte ++ [fp]) /\
     (ToLower name = "panic" -> Panic_ (addEvent cte name fp) = Panic_ cte ++ [fp]) /\
     (ToLower name = "finally" ->
        Finally (addEvent cte name fp) = Finally cte ++ [fp])) /\
  exists ev own nested,
    NewControllerTypeEvents MethodSet t = Ok ev /\
    discovered MethodSet t [] = own ++ nested /\
    Forall (fun e => FieldIndexPath (snd e) = []) own /\
    Forall (fun e => FieldIndexPath (snd e) <> []) nested /\
    Before ev = rev (inBucket OnBefore (discovered MethodSet t [])) /\
    After ev = inBucket OnAfter (discovered MethodSet t []) /\
    Panic_ ev = inBucket OnPanic (discovered MethodSet t []) /\
    Finally ev = inBucket OnFinally (discovered MethodSet t []) /\
    Before ev = rev (inBucket OnBefore nested) ++ rev (inBucket OnBefore own) /\
    After ev = inBucket OnAfter own ++ inBucket OnAfter nested.
Proof.
  intros Hs. split; [apply addEvent_front_or_end |].
  destruct t as [k n | e | n fs]; try discriminate Hs.
  exists (stored (discovered MethodSet (TStruct n fs) []) emptyEvents),
    (hooksIn [(TStruct n fs, [])]), (hooksIn (fieldVisits [] fs 0)).
  split; [apply check_stored; exact Hs |].
  split; [rewrite discovered_eq, visited_struct; apply (hooksAt_app [_]) |].
  split.
  { apply List.Forall_forall. intros [b fp] Hin. apply hooksAt_path in Hin.
    destruct Hin as (u & [[= _ Hp] | []]). simpl. congruence. }
  split.
  { apply List.Forall_forall. intros [b fp] Hin. apply hooksAt_path in Hin.
    destruct Hin as (u & Hin). eapply fieldVisits_nested; exact Hin. }
  assert (Hd : discovered MethodSet (TStruct n fs) []
               = hooksIn [(TStruct n fs, [])] ++ hooksIn (fieldVisits [] fs 0)).
  { rewrite discovered_eq, visited_struct. apply (hooksAt_app [_]). }
  unfold stored; simpl. rewrite app_nil_r.
  repeat split; try reflexivity.
  - rewrite Hd, inBucket_app, rev_app_distr. reflexivity.
  - rewrite Hd, inBucket_app. reflexivity.
Qed.


End HookDiscovery.

(** ** Replaying a field path *)

Section PathReplay.

Variable Call : FuncRef -> list Value -> result (list Value).

Lemma invokeStep_pointer t a d i :
  invokeStep (Val (TPtr t) a (DPtr d)) i = Value_Field (Val t true d) i.
Proof. reflexivity. Qed.

Lemma invokeStep_direct t a d i :
  isPtr t = false -> invokeStep (Val t a d) i = Value_Field (Val t a d) i.
Proof. intros Hp. unfold invokeStep. simpl. rewrite Hp. reflexivity. Qed.

Lemma Navigates_foldM v path w :
  Navigates v path w -> foldM invokeStep path v = Ok w.
Proof.
  induction 1 as [v | t a d i path v' w Hf _ IH | t a d i path v' w Hp Hf _ IH].
  - reflexivity.
  - cbn [foldM]. rewrite invokeStep_pointer, Hf. exact IH.
  - cbn [foldM]. rewrite (invokeStep_direct _ _ _ _ Hp), Hf. exact IH.
Qed.

Lemma foldM_Navigates path : forall v w,
  foldM invokeStep path v = Ok w -> Navigates v path w.
Proof.
  induction path as [| i path IH]; intros v w; cbn [foldM].
  - intros [= ->]. constructor.
  - destruct (invokeStep v i) as [v' | msg |] eqn:Hstep; try discriminate.
    cbn [rbind]. intros Hrest. apply IH in Hrest.
    destruct v as [| t a d]; [discriminate Hstep |].
    destruct (isPtr t) eqn:Hp.
    + destruct t as [k n | t0 | n fs]; try discriminate Hp.
      destruct d as [z | | d0 | ds]; try discriminate Hstep.
      rewrite invokeStep_pointer in Hstep.
      eapply nav_pointer; eassumption.
    + rewrite (invokeStep_direct _ _ _ _ Hp) in Hstep.
      eapply nav_direct; eassumption.
Qed.

Lemma Normalizes_adjust isPointer v r :
  Normalizes isPointer v r -> adjustReceiver isPointer v = Ok r.
Proof.
  destruct 1 as [t d Hp | t a d | t a d | t a | t a d Hp];
    unfold adjustReceiver; simpl; try rewrite Hp; reflexivity.
Qed.

Lemma adjust_Normalizes isPointer v r :
  adjustReceiver isPointer v = Ok r -> Normalizes isPointer v r.
Proof.
  unfold adjustReceiver. destruct v as [| t a d].
  - destruct isPointer; discriminate.
  - destruct isPointer; simpl; destruct (isPtr t) eqn:Hp; simpl.
    + intros [= <-]. destruct t; try discriminate Hp. constructor.
    + destruct a; try discriminate. intros [= <-]. constructor. exact Hp.
    + destruct t as [k n | t0 | n fs]; try discriminate Hp.
      destruct d as [z | | d0 | ds]; try discriminate; intros [= <-]; constructor.
    + intros [= <-]. constructor. exact Hp.
Qed.

(** C5.  [Invoke] navigates from the root by the stored indexes in order,
    through the pointer first wherever the current value is one, brings the
    value reached to the receiver form the path records, and calls the
    stored function with that receiver in front of the extra arguments: its
    outcome is the call's, and whenever it returns results they are those of
    such a call. *)
Theorem Invoke_replays_path (fieldPath : ControllerFieldPath) (root : Value)
    (input : list Value) :
  (forall target receiver,
     Navigates root (FieldIndexPath fieldPath) target ->
     Normalizes (IsPointer fieldPath) target receiver ->
     Invoke Call fieldPath root input
     = Call (FunctionCall fieldPath) (receiver :: input)) /\
  (forall results,
     Invoke Call fieldPath root input = Ok results ->
     exists target receiver,
       Navigates root (FieldIndexPath fieldPath) target /\
       Normalizes (IsPointer fieldPath) target receiver /\
       Call (FunctionCall fieldPath) (receiver :: input) = Ok results).
Proof.
  unfold Invoke. split.
  - intros target receiver Hnav Hnorm.
    rewrite (Navigates_foldM _ _ _ Hnav). cbn [rbind].
    rewrite (Normalizes_adjust _ _ _ Hnorm). reflexivity.
  - intros results.
    destruct (foldM invokeStep (FieldIndexPath fieldPath) root)
      as [target | msg |] eqn:Hnav; try discriminate.
    cbn [rbind].
    destruct (adjustReceiver (IsPointer fieldPath) target)
      as [receiver | msg |] eqn:Hnorm; try discriminate.
    cbn [rbind]. intros Hcall. exists target, receiver.
    split; [apply foldM_Navigates; exact Hnav |].
    split; [apply adjust_Normalizes; exact Hnorm | exact Hcall].
Qed.

End PathReplay.

(** ** Method lookup *)

Lemma find_lowerName_ext (ms : list MethodType) (l1 l2 : string) :
  l1 = l2 ->
  List.find (fun method => String.eqb (lowerName method) l1) ms
  = List.find (fun method => String.eqb (lowerName method) l2) ms.
Proof. intros ->. reflexivity. Qed.

Lemma find_first_match (pre post : list MethodType) (m : MethodType) (lower : string) :
  lowerName m = lower ->
  (forall m', In m' pre -> lowerName m' <> lower) ->
  List.find (fun method => String.eqb (lowerName method) lower) (pre ++ m :: post)
  = Some m.
Proof.
  intros Hm Hpre. induction pre as [| p pre IH]; simpl.
  - rewrite (proj2 (String.eqb_eq _ _) Hm). reflexivity.
  - destruct (String.eqb_spec (lowerName p) lower) as [Heq | _].
    + exfalso. apply (Hpre p); [left; reflexivity | exact Heq].
    + apply IH. intros m' Hin. apply Hpre. right; exact Hin.
Qed.

Lemma find_no_match (ms : list MethodType) (lower : string) :
  (forall m, In m ms -> lowerName m <> lower) ->
  List.find (fun method => String.eqb (lowerName method) lower) ms = None.
Proof.
  intros Hno. induction ms as [| p ms IH]; simpl; [reflexivity |].
  destruct (String.eqb_spec (lowerName p) lower) as [Heq | _].
  - exfalso. apply (Hno p); [left; reflexivity | exact Heq].
  - apply IH. intros m Hin. apply Hno. right; exact Hin.
Qed.

(** C9.  [Method] compares lowered names.  On a descriptor whose methods
    carry their lowered name in [lowerName] (the method list as it is handed
    to registration): two spellings of a name that differ only in case find
    the same method; the spelling of any case of a method's name finds that
    method, the first of that lowered name; a name that matches no method
    finds none; and what is found is a method of the descriptor whose name
    matches. *)
Theorem Method_lookup_case_insensitive (ct : ControllerType) :
  (forall m, In m (Methods ct) -> lowerName m = ToLower (Name m)) ->
  (forall name1 name2,
     ToLower name1 = ToLower name2 -> ControllerType_Method ct name1 = ControllerType_Method ct name2) /\
  (forall pre m post name,
     Methods ct = pre ++ m :: post ->
     ToLower name = ToLower (Name m) ->
     (forall m', In m' pre -> ToLower (Name m') <> ToLower (Name m)) ->
     ControllerType_Method ct name = Some m) /\
  (forall name,
     (forall m, In m (Methods ct) -> ToLower (Name m) <> ToLower name) ->
     ControllerType_Method ct name = None) /\
  (forall name m,
     ControllerType_Method ct name = Some m ->
     In m (Methods ct) /\ ToLower (Name m) = ToLower name).
Proof.
  intros Hlow. unfold ControllerType_Method. split; [| split; [| split]].
  - intros name1 name2 Heq. apply find_lowerName_ext. exact Heq.
  - intros pre m post name Hms Hname Hpre. rewrite Hms.
    assert (Hm : In m (Methods ct)) by (rewrite Hms; apply in_elt).
    apply find_first_match.
    + rewrite (Hlow m Hm). symmetry. exact Hname.
    + intros m' Hin. rewrite Hname, (Hlow m').
      * apply Hpre. exact Hin.
      * rewrite Hms. apply in_or_app. left; exact Hin.
  - intros name Hno. apply find_no_match. intros m Hin.
    rewrite (Hlow m Hin). apply Hno. exact Hin.
  - intros name m Hfind. apply find_some in Hfind. destruct Hfind as [Hin Heq].
    split; [exact Hin |].
    apply String.eqb_eq in Heq. rewrite <- (Hlow m Hin). exact Heq.
Qed.

(** ** The registry *)

Section Registry.

Variable MethodSet : rtype -> list Method.
Variable controllerPtrType : rtype.
Variable appModule : ModuleRef.
Variable ModuleNamespace : ModuleRef -> string.

Local Abbreviation register :=
  (AddControllerType MethodSet controllerPtrType appModule ModuleNamespace).

Lemma register_built c moduleSource controllerType methods indexes events :
  findControllers controllerPtrType controllerType = Ok indexes ->
  NewControllerTypeEvents MethodSet controllerType = Ok events ->
  exists c',
    register c moduleSource controllerType methods
    = Ok (descriptorOf ModuleNamespace (default appModule moduleSource) controllerType methods
            indexes events, c').
Proof.
  intros Hi He. unfold AddControllerType. rewrite Hi, He. cbn [rbind].
  destruct moduleSource; eexists; reflexivity.
Qed.

Lemma default_module moduleSource :
  match moduleSource with Some m => m | None => appModule end
  = default appModule moduleSource.
Proof. destruct moduleSource; reflexivity. Qed.

(** A registration under a name that is taken. *)
Lemma register_taken c moduleSource controllerType methods first ct c' :
  controllers c !! (ModuleNamespace (default appModule moduleSource)
                    ++ ToLower (Type_Name controllerType))%string = Some first ->
  register c moduleSource controllerType methods = Ok (ct, c') ->
  controllers c' = controllers c /\
  moduleControllers c' = moduleControllers c /\
  controllerLog c'
  = controllerLog c ++
    [LogError ("Error, attempt to register duplicate controller as "
               ++ ModuleNamespace (default appModule moduleSource)
               ++ ToLower (Type_Name controllerType))%string;
     LogDebug ("Registered controller: "
               ++ ModuleNamespace (default appModule moduleSource)
               ++ ToLower (Type_Name controllerType))%string].
Proof.
  intros Hfound. unfold AddControllerType.
  destruct (findControllers controllerPtrType controllerType) as [indexes | |];
    try discriminate.
  destruct (NewControllerTypeEvents MethodSet controllerType) as [events | |];
    try discriminate.
  cbn [rbind]. unfold ControllerType_Name, ShortName. cbn [Namespace Type_].
  rewrite default_module, Hfound. intros [= _ <-]. cbn.
  rewrite <- app_assoc. auto.
Qed.

(** A registration under a name that is free. *)
Lemma register_fresh c moduleSource controllerType methods ct c' :
  controllers c !! (ModuleNamespace (default appModule moduleSource)
                    ++ ToLower (Type_Name controllerType))%string = None ->
  register c moduleSource controllerType methods = Ok (ct, c') ->
  controllers c' !! (ModuleNamespace (default appModule moduleSource)
                     ++ ToLower (Type_Name controllerType))%string = Some ct /\
  (default appModule moduleSource = appModule ->
   controllers c' !! ToLower (Type_Name controllerType) = Some ct) /\
  exists indexes events,
    findControllers controllerPtrType controllerType = Ok indexes /\
    NewControllerTypeEvents MethodSet controllerType = Ok events.
Proof.
  intros Hfree. unfold AddControllerType.
  destruct (findControllers controllerPtrType controllerType) as [indexes | |];
    try discriminate.
  destruct (NewControllerTypeEvents MethodSet controllerType) as [events | |];
    try discriminate.
  cbn [rbind]. unfold ControllerType_Name, ShortName. cbn [Namespace Type_].
  rewrite default_module, Hfree. intros [= <- <-]. cbn.
  split; [| split; [| eauto]].
  - destruct (default appModule moduleSource =? appModule)%nat;
      [| apply lookup_insert_eq].
    destruct (decide (ToLower (Type_Name controllerType)
                      = (ModuleNamespace (default appModule moduleSource)
                         ++ ToLower (Type_Name controllerType))%string))
      as [Heq | Hne].
    + rewrite <- Heq. apply lookup_insert_eq.
    + rewrite lookup_insert_ne by exact Hne. apply lookup_insert_eq.
  - intros ->. rewrite Nat.eqb_refl. apply lookup_insert_eq.
Qed.


(** C10.  A nil module is the application module: the call is the same as
    the one that names [appModule].  When the descriptor of the type can be
    built the call returns it with the namespace of the application module,
    and on a first registration (the name is free) the registry then holds
    that descriptor under its name and under its bare lowered short name. *)
Theorem nil_module_registers_in_app_module (c : Registry) (controllerType : rtype)
    (methods : list MethodType) :
  register c None controllerType methods
  = register c (Some appModule) controllerType methods /\
  (forall indexes events,
     findControllers controllerPtrType controllerType = Ok indexes ->
     NewControllerTypeEvents MethodSet controllerType = Ok events ->
     exists ct c',
       register c None controllerType methods = Ok (ct, c') /\
       Namespace ct = ModuleNamespace appModule /\
       ModuleSource ct = appModule /\
       ShortName ct = ToLower (Type_Name controllerType) /\
       ControllerType_Name ct
       = (ModuleNamespace appModule ++ ToLower (Type_Name controllerType))%string /\
       (controllers c !! ControllerType_Name ct = None ->
        controllers c' !! ControllerType_Name ct = Some ct /\
        controllers c' !! ShortName ct = Some ct)).
Proof.
  split; [reflexivity |].
  intros indexes events Hi He. unfold AddControllerType. rewrite Hi, He.
  cbn [rbind]. eexists _, _. split; [reflexivity |].
  cbn [Namespace ModuleSource]. unfold ControllerType_Name, ShortName.
  cbn [Namespace Type_].
  split; [reflexivity |]. split; [reflexivity |]. split; [reflexivity |].
  split; [reflexivity |].
  intros Hfree. rewrite Hfree. cbn. rewrite Nat.eqb_refl. split.
  - destruct (decide (ToLower (Type_Name controllerType)
                      = (ModuleNamespace appModule
                         ++ ToLower (Type_Name controllerType))%string))
      as [Heq | Hne].
    + rewrite <- Heq. apply lookup_insert_eq.
    + rewrite lookup_insert_ne by exact Hne. apply lookup_insert_eq.
  - apply lookup_insert_eq.
Qed.

End Registry.

(** ** Finding the embedded controllers *)

Section Finder.

Variable controllerPtrType : rtype.

Local Abbreviation fieldStep' := (fieldStep controllerPtrType).
Local Abbreviation findLoop' := (findLoop controllerPtrType).
Local Abbreviation capsFrom' := (capsFrom controllerPtrType).
Local Abbreviation childrenFrom' := (childrenFrom controllerPtrType).

Lemma embeddedPaths_struct n fs :
  embeddedPaths controllerPtrType (TStruct n fs) = fieldPaths controllerPtrType fs 0.
Proof. reflexivity. Qed.

Lemma nilFree_struct n fs :
  nilFree controllerPtrType (TStruct n fs) = fieldsNilFree controllerPtrType fs.
Proof. reflexivity. Qed.

Lemma queueWeight_app q1 q2 : queueWeight (q1 ++ q2) = (queueWeight q1 + queueWeight q2)%nat.
Proof. unfold queueWeight. rewrite List.map_app, list_sum_app. reflexivity. Qed.

(** One turn of the loop over the fields. *)
Lemma fieldStep_cases node elem elemType i f fieldValue queue indexes :
  Type_Field elemType i = Ok f ->
  Value_Field elem i = Ok fieldValue ->
  fieldStep' node elem elemType (queue, indexes) i
  = if negb (Anonymous f) then Ok (queue, indexes)
    else if rtype_eqb (FieldType f) controllerPtrType
         then Ok (queue, indexes ++ [index node ++ [i]])
         else Ok (queue ++ [ {| val := fieldValue; index := index node ++ [i] |} ],
                  indexes).
Proof.
  intros Hf Hv. unfold fieldStep. rewrite Hf, Hv.
  cbn [rbind]. destruct (Anonymous f); reflexivity.
Qed.

(** The loop over the fields of a zero struct value. *)
Lemma fieldLoop_zero node n a (pre suf : list StructField) queue indexes :
  foldM (fieldStep' node (Val (TStruct n (pre ++ suf)) a (Zero (TStruct n (pre ++ suf))))
           (TStruct n (pre ++ suf)))
    (seq (List.length pre) (List.length suf)) (queue, indexes)
  = Ok (queue ++ childrenFrom' a (index node) suf (List.length pre),
        indexes ++ capsFrom' (index node) suf (List.length pre)).
Proof.
  revert pre queue indexes.
  induction suf as [| f suf IH]; intros pre queue indexes.
  - simpl. rewrite !app_nil_r. reflexivity.
  - cbn [List.length seq foldM].
    assert (Hf : nth_error (pre ++ f :: suf) (List.length pre) = Some f).
    { rewrite nth_error_app2 by lia. rewrite Nat.sub_diag. reflexivity. }
    rewrite (fieldStep_cases node _ _ _ f (Val (FieldType f) a (Zero (FieldType f))))
      by (try (apply Value_Field_Zero; exact Hf); unfold Type_Field; rewrite Hf;
          reflexivity).
    specialize (IH (pre ++ [f])). rewrite <- app_assoc in IH. cbn [app] in IH.
    rewrite length_app in IH. cbn [List.length] in IH.
    replace (List.length pre + 1)%nat with (S (List.length pre)) in IH by lia.
    cbn [capsFrom childrenFrom].
    destruct (Anonymous f); cbn [negb andb rbind].
    + destruct (rtype_eqb (FieldType f) controllerPtrType); cbn [negb rbind app].
      * rewrite IH, <- app_assoc. reflexivity.
      * rewrite IH, <- app_assoc. reflexivity.
    + rewrite IH. reflexivity.
Qed.

Lemma fieldLoop_zero_all node n a fs queue indexes :
  foldM (fieldStep' node (Val (TStruct n fs) a (Zero (TStruct n fs))) (TStruct n fs))
    (seq 0 (List.length fs)) (queue, indexes)
  = Ok (queue ++ childrenFrom' a (index node) fs 0,
        indexes ++ capsFrom' (index node) fs 0).
Proof. apply (fieldLoop_zero node n a [] fs). Qed.

(** A turn of the outer loop on a node that resolves to a zero struct. *)
Lemma findLoop_struct fuel node queue indexes n fs a :
  derefNode node
  = Ok (Val (TStruct n fs) a (Zero (TStruct n fs)), TStruct n fs) ->
  findLoop' (S fuel) (node :: queue) indexes
  = findLoop' fuel (queue ++ childrenFrom' a (index node) fs 0)
      (indexes ++ capsFrom' (index node) fs 0).
Proof.
  intros Hd. cbn [findLoop]. rewrite Hd. cbn [rbind isStruct negb Value_NumField].
  rewrite fieldLoop_zero_all. reflexivity.
Qed.

Lemma findLoop_skip fuel node queue indexes elem elemType :
  derefNode node = Ok (elem, elemType) ->
  isStruct elemType = false ->
  findLoop' (S fuel) (node :: queue) indexes = findLoop' fuel queue indexes.
Proof.
  intros Hd Hs. cbn [findLoop]. rewrite Hd. cbn [rbind]. rewrite Hs. reflexivity.
Qed.

Lemma derefNode_zero a t path :
  isPtr t = false -> derefNode (zeroNode a t path) = Ok (Val t a (Zero t), t).
Proof. intros Hp. unfold derefNode. simpl. rewrite Hp. reflexivity. Qed.

Lemma derefNode_root t path :
  derefNode {| val := New t; index := path |} = Ok (Val t true (Zero t), t).
Proof. reflexivity. Qed.

Lemma list_sum_cons x l : list_sum (x :: l) = (x + list_sum l)%nat.
Proof. reflexivity. Qed.

Lemma children_weight a path fs i :
  (queueWeight (childrenFrom' a path fs i) <= fields_size fs)%nat.
Proof.
  revert i. induction fs as [| f rest IH]; intros i; cbn [childrenFrom].
  - unfold queueWeight, fields_size. simpl. lia.
  - rewrite queueWeight_app. specialize (IH (S i)).
    unfold fields_size in *. cbn [List.map]. rewrite list_sum_cons.
    destruct (Anonymous f && negb (rtype_eqb (FieldType f) controllerPtrType)).
    + change (queueWeight [zeroNode a (FieldType f) (path ++ [i])])
        with (rtype_size (FieldType f) + 0)%nat.
      lia.
    + change (queueWeight []) with 0%nat.
      pose proof (rtype_size_pos (FieldType f)). lia.
Qed.

Lemma children_good a path fs i :
  fieldsNilFree controllerPtrType fs = true ->
  Forall (goodNode controllerPtrType) (childrenFrom' a path fs i).
Proof.
  revert i. induction fs as [| [fn an ft] rest IH]; intros i Hfs;
    cbn [childrenFrom]; [constructor |].
  simpl in Hfs. apply andb_true_iff in Hfs. destruct Hfs as [Hf Hrest].
  apply Forall_app. split; [| apply IH; exact Hrest].
  cbn [Anonymous FieldType].
  destruct an; cbn [andb]; [| constructor].
  destruct (rtype_eqb ft controllerPtrType); cbn [negb]; constructor; [| constructor].
  simpl in Hf. exists a, ft. split; [reflexivity | exact Hf].
Qed.

Lemma nodePaths_zero a t path :
  nodePaths controllerPtrType (zeroNode a t path)
  = List.map (app path) (embeddedPaths controllerPtrType t).
Proof. reflexivity. Qed.

(** The occurrences below a struct are those its field loop records
    together with those below the nodes it enqueues. *)
Lemma fieldPaths_split a path fs i :
  Permutation
    (List.map (app path) (fieldPaths controllerPtrType fs i))
    (capsFrom' path fs i
     ++ flat_map (nodePaths controllerPtrType) (childrenFrom' a path fs i)).
Proof.
  revert i. induction fs as [| [fn an ft] rest IH]; intros i;
    cbn [fieldPaths capsFrom childrenFrom]; [constructor |].
  cbn [Anonymous FieldType]. rewrite List.map_app, flat_map_app.
  specialize (IH (S i)).
  destruct an; cbn [andb].
  - destruct (rtype_eqb ft controllerPtrType); cbn [negb].
    + cbn [List.map app flat_map]. apply perm_skip. exact IH.
    + cbn [app flat_map]. rewrite app_nil_r, nodePaths_zero, List.map_map.
      rewrite (List.map_ext (fun q => path ++ i :: q) (app (path ++ [i])))
        by (intros q; rewrite <- app_assoc; reflexivity).
      etransitivity; [apply Permutation_app_head; exact IH |].
      rewrite !app_assoc. apply Permutation_app_tail. apply Permutation_app_comm.
  - cbn [app List.map flat_map]. exact IH.
Qed.

(** The loop on a queue of zero values that can be walked without meeting
    a nil pointer: with a budget of the queue's weight it returns, having
    appended the occurrences below the queued nodes. *)
Lemma findLoop_nilFree fuel : forall queue indexes,
  Forall (goodNode controllerPtrType) queue ->
  (queueWeight queue <= fuel)%nat ->
  exists found,
    findLoop' fuel queue indexes = Ok (indexes ++ found) /\
    Permutation found (flat_map (nodePaths controllerPtrType) queue).
Proof.
  induction fuel as [| fuel IH]; intros queue indexes Hgood Hw.
  - destruct queue as [| node queue].
    + exists []. rewrite app_nil_r. split; [reflexivity | constructor].
    + exfalso. unfold queueWeight in Hw. simpl in Hw.
      inversion Hgood as [| ? ? (a & t & Hv & _) _]; subst.
      unfold nodeWeight in Hw. rewrite Hv in Hw.
      pose proof (rtype_size_pos t). lia.
  - destruct queue as [| node queue].
    + exists []. rewrite app_nil_r. split; [reflexivity | constructor].
    + inversion Hgood as [| ? ? (a & t & Hv & Hnf) Hrest]; subst.
      destruct node as [v path]. simpl in Hv. subst v.
      change {| val := Val t a (Zero t); index := path |} with (zeroNode a t path) in *.
      assert (Hnw : nodeWeight (zeroNode a t path) = rtype_size t) by reflexivity.
      unfold queueWeight in Hw. cbn [List.map] in Hw.
      rewrite list_sum_cons, Hnw in Hw.
      fold (queueWeight queue) in Hw.
      destruct t as [k n | e | n fs]; [| discriminate Hnf |].
      * rewrite (findLoop_skip fuel _ queue indexes _ _
                   (derefNode_zero a (TLeaf k n) path eq_refl) eq_refl).
        destruct (IH queue indexes Hrest) as (found & Hrun & Hperm);
          [simpl in Hw; lia |].
        exists found. split; [exact Hrun |].
        cbn [flat_map]. rewrite nodePaths_zero. exact Hperm.
      * rewrite (findLoop_struct fuel _ queue indexes n fs a
                   (derefNode_zero a (TStruct n fs) path eq_refl)).
        cbn [index zeroNode].
        rewrite nilFree_struct in Hnf. rewrite rtype_size_struct in Hw.
        destruct (IH (queue ++ childrenFrom' a path fs 0)
                     (indexes ++ capsFrom' path fs 0)) as (found & Hrun & Hperm).
        { apply Forall_app. split; [exact Hrest | apply children_good; exact Hnf]. }
        { rewrite queueWeight_app. pose proof (children_weight a path fs 0). lia. }
        exists (capsFrom' path fs 0 ++ found).
        split; [rewrite Hrun, <- app_assoc; reflexivity |].
        cbn [flat_map]. rewrite nodePaths_zero, embeddedPaths_struct.
        rewrite flat_map_app in Hperm.
        etransitivity; [apply Permutation_app_head; exact Hperm |].
        etransitivity;
          [| apply Permutation_app_tail; symmetry; apply (fieldPaths_split a)].
        rewrite <- !app_assoc. apply Permutation_app_head.
        apply Permutation_app_comm.
Qed.

(** On a type free of embedded pointers [findControllers] returns the
    embedded occurrences of the controller type, in breadth-first order. *)
Lemma findControllers_nilFree t :
  nilFree controllerPtrType t = true ->
  exists found,
    findControllers controllerPtrType t = Ok found /\
    Permutation found (embeddedPaths controllerPtrType t).
Proof.
  intros Hnf. unfold findControllers.
  destruct t as [k n | e | n fs]; [| discriminate Hnf |].
  - exists []. split; [reflexivity | constructor].
  - cbn [rtype_size PtrTo].
    rewrite (findLoop_struct _ _ [] [] n fs true (derefNode_root (TStruct n fs) [])).
    cbn [index app].
    rewrite nilFree_struct in Hnf.
    destruct (findLoop_nilFree (rtype_size (TStruct n fs))
                (childrenFrom' true [] fs 0) (capsFrom' [] fs 0))
      as (found & Hrun & Hperm).
    { apply children_good. exact Hnf. }
    { rewrite rtype_size_struct. pose proof (children_weight true [] fs 0). lia. }
    exists (capsFrom' [] fs 0 ++ found). split; [exact Hrun |].
    rewrite embeddedPaths_struct.
    etransitivity; [apply Permutation_app_head; exact Hperm |].
    symmetry.
    rewrite <- (List.map_id (fieldPaths controllerPtrType fs 0)) at 1.
    apply (fieldPaths_split true [] fs 0).
Qed.

(** *** The loop returns or panics within its budget *)

Lemma derefNode_inv node elem elemType :
  derefNode node = Ok (elem, elemType) ->
  (exists a d, elem = Val elemType a d) /\
  (rtype_size elemType <= nodeWeight node)%nat.
Proof.
  unfold derefNode, nodeWeight. destruct (val node) as [| t a d]; [discriminate |].
  cbn [Value_Type rbind]. destruct (isPtr t) eqn:Hp.
  - destruct t as [k n | e | n fs]; try discriminate Hp.
    destruct d as [z | | d0 | ds]; try discriminate.
    cbn. intros [= <- <-]. split; [eauto | lia].
  - intros [= <- <-]. split; [eauto | lia].
Qed.

Lemma derefNode_returns node : derefNode node <> OutOfFuel.
Proof.
  unfold derefNode. destruct (val node) as [| t a d]; [discriminate |].
  cbn [Value_Type rbind]. destruct (isPtr t); [| discriminate].
  destruct t as [k n | e | n fs]; try discriminate.
  destruct d as [z | | d0 | ds]; discriminate.
Qed.

Lemma fieldStep_outcome node elem elemType queue indexes i :
  (exists msg, fieldStep' node elem elemType (queue, indexes) i = Panic msg) \/
  (exists f indexes',
     Type_Field elemType i = Ok f /\
     (fieldStep' node elem elemType (queue, indexes) i = Ok (queue, indexes') \/
      exists fieldValue,
        Value_Field elem i = Ok fieldValue /\
        fieldStep' node elem elemType (queue, indexes) i
        = Ok (queue ++ [ {| val := fieldValue; index := index node ++ [i] |} ],
              indexes'))).
Proof.
  unfold fieldStep.
  destruct (Type_Field elemType i) as [f | msg |] eqn:Hf; cbn [rbind].
  - destruct (Anonymous f); cbn [negb]; [| right; eauto 6].
    destruct (Value_Field elem i) as [fieldValue | msg |] eqn:Hv; cbn [rbind].
    + destruct (rtype_eqb (FieldType f) controllerPtrType); right; eauto 8.
    + left; eauto.
    + exfalso. destruct elem as [| t a d]; [discriminate |].
      destruct t as [k n | e | n fs]; try discriminate.
      destruct d as [z | | d0 | ds]; try discriminate.
      simpl in Hv. destruct (nth_error fs i), (nth_error ds i); discriminate.
  - left; eauto.
  - exfalso. destruct elemType as [k n | e | n fs]; try discriminate.
    simpl in Hf. destruct (nth_error fs i); discriminate.
Qed.

Lemma Value_Field_type n fs a d i fieldValue f :
  Value_Field (Val (TStruct n fs) a d) i = Ok fieldValue ->
  nth_error fs i = Some f ->
  nodeWeight {| val := fieldValue; index := [] |} = rtype_size (FieldType f).
Proof.
  simpl. destruct d as [z | | d0 | ds]; try discriminate.
  intros Hv Hf. rewrite Hf in Hv. destruct (nth_error ds i); [| discriminate].
  injection Hv as <-. reflexivity.
Qed.

(** The loop over the fields only adds to the queue, nodes of the fields'
    types, and returns or panics. *)
Lemma fieldLoop_outcome node n a d (pre suf : list StructField) queue indexes :
  (exists msg,
     foldM (fieldStep' node (Val (TStruct n (pre ++ suf)) a d) (TStruct n (pre ++ suf)))
       (seq (List.length pre) (List.length suf)) (queue, indexes) = Panic msg) \/
  (exists extra indexes',
     foldM (fieldStep' node (Val (TStruct n (pre ++ suf)) a d) (TStruct n (pre ++ suf)))
       (seq (List.length pre) (List.length suf)) (queue, indexes)
     = Ok (queue ++ extra, indexes') /\
     (queueWeight extra <= fields_size suf)%nat).
Proof.
  revert pre queue indexes.
  induction suf as [| f suf IH]; intros pre queue indexes.
  - right. exists [], indexes. simpl. rewrite app_nil_r. split; [reflexivity |].
    unfold queueWeight, fields_size. simpl. lia.
  - cbn [List.length seq foldM].
    assert (Hf : nth_error (pre ++ f :: suf) (List.length pre) = Some f).
    { rewrite nth_error_app2 by lia. rewrite Nat.sub_diag. reflexivity. }
    specialize (IH (pre ++ [f])). rewrite <- app_assoc in IH. cbn [app] in IH.
    rewrite length_app in IH. cbn [List.length] in IH.
    replace (List.length pre + 1)%nat with (S (List.length pre)) in IH by lia.
    unfold fields_size. cbn [List.map]. rewrite list_sum_cons.
    fold (fields_size suf).
    destruct (fieldStep_outcome node (Val (TStruct n (pre ++ f :: suf)) a d)
                (TStruct n (pre ++ f :: suf)) queue indexes (List.length pre))
      as [(msg & Hstep) | (f' & indexes' & Hf' & [Hstep | (fv & Hv & Hstep)])];
      rewrite Hstep; cbn [rbind].
    + left; eauto.
    + destruct (IH queue indexes') as [(msg & Hrun) | (extra & idx & Hrun & Hw)].
      * left; eauto.
      * right. exists extra, idx. split; [exact Hrun | lia].
    + destruct (IH (queue ++ [ {| val := fv; index := index node ++ [List.length pre] |} ])
                  indexes') as [(msg & Hrun) | (extra & idx & Hrun & Hw)].
      * left; eauto.
      * right. exists ({| val := fv; index := index node ++ [List.length pre] |} :: extra), idx.
        split; [rewrite Hrun, <- app_assoc; reflexivity |].
        unfold queueWeight in *. cbn [List.map]. rewrite list_sum_cons.
        change (nodeWeight {| val := fv; index := index node ++ [List.length pre] |})
          with (nodeWeight {| val := fv; index := [] |}).
        rewrite (Value_Field_type _ _ _ _ _ _ f Hv Hf). lia.
Qed.

Lemma nodeWeight_pos node : (0 < nodeWeight node)%nat.
Proof.
  unfold nodeWeight. destruct (val node); [lia | apply rtype_size_pos].
Qed.

(** Enough budget: the loop never stops for lack of it. *)
Lemma findLoop_returns fuel : forall queue indexes,
  (queueWeight queue <= fuel)%nat ->
  findLoop' fuel queue indexes <> OutOfFuel.
Proof.
  induction fuel as [| fuel IH]; intros queue indexes Hw.
  - destruct queue as [| node queue]; [discriminate |].
    unfold queueWeight in Hw. cbn [List.map] in Hw. rewrite list_sum_cons in Hw.
    pose proof (nodeWeight_pos node). lia.
  - destruct queue as [| node queue]; [discriminate |].
    unfold queueWeight in Hw. cbn [List.map] in Hw. rewrite list_sum_cons in Hw.
    fold (queueWeight queue) in Hw. pose proof (nodeWeight_pos node) as Hpos.
    cbn [findLoop].
    destruct (derefNode node) as [[elem elemType] | msg |] eqn:Hd; cbn [rbind].
    + destruct (derefNode_inv _ _ _ Hd) as ((a & d & ->) & Hsz).
      destruct elemType as [k n | e | n fs]; cbn [isStruct negb];
        try (apply IH; lia).
      cbn [Value_NumField rbind]. rewrite rtype_size_struct in Hsz.
      destruct (fieldLoop_outcome node n a d [] fs queue indexes)
        as [(msg & Hrun) | (extra & idx & Hrun & Hwe)];
        cbn [app List.length] in Hrun; rewrite Hrun; cbn [rbind]; [discriminate |].
      apply IH. rewrite queueWeight_app. lia.
    + discriminate.
    + exfalso. exact (derefNode_returns node Hd).
Qed.

Lemma findControllers_returns t : findControllers controllerPtrType t <> OutOfFuel.
Proof.
  unfold findControllers. apply findLoop_returns.
  unfold queueWeight, nodeWeight. simpl. lia.
Qed.

(** *** A queued nil pointer *)

Lemma derefNode_nil node : nilPointerNode node -> exists msg, derefNode node = Panic msg.
Proof.
  intros (u & a & Hv). unfold derefNode. rewrite Hv. simpl. eauto.
Qed.

(** With a nil pointer in the queue the loop does not return. *)
Lemma findLoop_nil_pointer fuel : forall queue indexes node,
  In node queue -> nilPointerNode node ->
  forall found, findLoop' fuel queue indexes <> Ok found.
Proof.
  induction fuel as [| fuel IH]; intros queue indexes bad Hin Hbad found.
  - destruct queue; [destruct Hin | discriminate].
  - destruct queue as [| node queue]; [destruct Hin |].
    cbn [findLoop].
    destruct (derefNode node) as [[elem elemType] | msg |] eqn:Hd; cbn [rbind];
      try discriminate.
    assert (Hrest : In bad queue).
    { destruct Hin as [-> | Hin]; [| exact Hin].
      destruct (derefNode_nil _ Hbad) as (msg & Hp). congruence. }
    destruct (derefNode_inv _ _ _ Hd) as ((a & d & ->) & _).
    destruct elemType as [k n | e | n fs]; cbn [isStruct negb];
      try (eapply IH; eassumption).
    cbn [Value_NumField rbind].
    destruct (fieldLoop_outcome node n a d [] fs queue indexes)
      as [(msg & Hrun) | (extra & idx & Hrun & _)];
      cbn [app List.length] in Hrun; rewrite Hrun; cbn [rbind]; [discriminate |].
    eapply IH; [| exact Hbad]. apply in_or_app. left; exact Hrest.
Qed.

Lemma children_In a path fs i k f :
  nth_error fs k = Some f ->
  Anonymous f = true ->
  rtype_eqb (FieldType f) controllerPtrType = false ->
  In (zeroNode a (FieldType f) (path ++ [(i + k)%nat])) (childrenFrom' a path fs i).
Proof.
  revert i k. induction fs as [| g rest IH]; intros i k Hk Ha Hne.
  - destruct k; discriminate Hk.
  - cbn [childrenFrom]. apply in_or_app. destruct k as [| k].
    + injection Hk as ->. left. rewrite Ha, Hne. rewrite Nat.add_0_r.
      left; reflexivity.
    + right. replace (i + S k)%nat with (S i + k)%nat by lia.
      apply IH; assumption.
Qed.

(** A struct with an anonymous field of a pointer type other than the
    controller type makes [findControllers] panic. *)
Lemma findControllers_nil_pointer n fs k f u :
  nth_error fs k = Some f ->
  Anonymous f = true ->
  FieldType f = TPtr u ->
  TPtr u <> controllerPtrType ->
  exists msg, findControllers controllerPtrType (TStruct n fs) = Panic msg.
Proof.
  intros Hk Ha Ht Hne.
  pose proof (findControllers_returns (TStruct n fs)) as Hret.
  destruct (findControllers controllerPtrType (TStruct n fs)) as [found | msg |] eqn:Hrun;
    [| eauto | congruence].
  exfalso. unfold findControllers in Hrun. cbn [rtype_size PtrTo] in Hrun.
  rewrite (findLoop_struct _ _ [] [] n fs true (derefNode_root (TStruct n fs) []))
    in Hrun.
  cbn [index app] in Hrun.
  refine (findLoop_nil_pointer _ _ _ _ _ _ found Hrun).
  - apply (children_In true [] fs 0 k f Hk Ha).
    rewrite Ht. apply rtype_eqb_neq. exact Hne.
  - rewrite Ht. exists u, true. reflexivity.
Qed.

Lemma children_unsafe a path fs i :
  fieldsNilFree controllerPtrType fs = false ->
  exists child,
    In child (childrenFrom' a path fs i) /\ unsafeNode controllerPtrType child.
Proof.
  revert i. induction fs as [| [fn an ft] rest IH]; intros i Hfs;
    [discriminate Hfs |].
  simpl in Hfs. cbn [childrenFrom Anonymous FieldType].
  destruct an; cbn [negb orb andb] in *.
  - destruct (rtype_eqb ft controllerPtrType); cbn [negb orb andb app] in *.
    + destruct (IH (S i) Hfs) as (child & Hin & Hbad). eauto.
    + destruct (nilFree controllerPtrType ft) eqn:Hft; cbn [andb] in Hfs.
      * destruct (IH (S i) Hfs) as (child & Hin & Hbad).
        exists child. split; [right; exact Hin | exact Hbad].
      * exists (zeroNode a ft (path ++ [i])). split; [left; reflexivity |].
        exists a, ft. split; [reflexivity | exact Hft].
  - destruct (IH (S i) Hfs) as (child & Hin & Hbad). eauto.
Qed.

(** With a node in the queue below which a nil pointer lies, the loop does
    not return. *)
Lemma findLoop_unsafe fuel : forall queue indexes node,
  In node queue -> unsafeNode controllerPtrType node ->
  forall found, findLoop' fuel queue indexes <> Ok found.
Proof.
  induction fuel as [| fuel IH]; intros queue indexes bad Hin Hbad found.
  - destruct queue; [destruct Hin | discriminate].
  - destruct queue as [| node queue]; [destruct Hin |].
    destruct Hin as [-> | Hrest].
    + destruct Hbad as (a & t & Hv & Hnf). destruct bad as [v path].
      simpl in Hv. subst v.
      destruct t as [k n | e | n fs]; [discriminate Hnf | |].
      * cbn [findLoop]. unfold derefNode. simpl. discriminate.
      * change {| val := Val (TStruct n fs) a (Zero (TStruct n fs)); index := path |}
          with (zeroNode a (TStruct n fs) path).
        rewrite (findLoop_struct fuel _ queue indexes n fs a
                   (derefNode_zero a (TStruct n fs) path eq_refl)).
        rewrite nilFree_struct in Hnf.
        destruct (children_unsafe a path fs 0 Hnf) as (child & Hin & Hchild).
        eapply IH; [| exact Hchild]. apply in_or_app. right; exact Hin.
    + cbn [findLoop].
      destruct (derefNode node) as [[elem elemType] | msg |] eqn:Hd; cbn [rbind];
        try discriminate.
      destruct (derefNode_inv _ _ _ Hd) as ((a & d & ->) & _).
      destruct elemType as [k n | e | n fs]; cbn [isStruct negb];
        try (eapply IH; eassumption).
      cbn [Value_NumField rbind].
      destruct (fieldLoop_outcome node n a d [] fs queue indexes)
        as [(msg & Hrun) | (extra & idx & Hrun & _)];
        cbn [app List.length] in Hrun; rewrite Hrun; cbn [rbind]; [discriminate |].
      eapply IH; [| exact Hbad]. apply in_or_app. left; exact Hrest.
Qed.

(** A struct type on which the walk meets a nil pointer makes
    [findControllers] panic. *)
Lemma findControllers_unsafe t :
  isStruct t = true ->
  nilFree controllerPtrType t = false ->
  exists msg, findControllers controllerPtrType t = Panic msg.
Proof.
  intros Hs Hnf. destruct t as [k n | e | n fs]; try discriminate Hs.
  pose proof (findControllers_returns (TStruct n fs)) as Hret.
  destruct (findControllers controllerPtrType (TStruct n fs)) as [found | msg |] eqn:Hrun;
    [| eauto | congruence].
  exfalso. unfold findControllers in Hrun. cbn [rtype_size PtrTo] in Hrun.
  rewrite (findLoop_struct _ _ [] [] n fs true (derefNode_root (TStruct n fs) []))
    in Hrun.
  cbn [index app] in Hrun. rewrite nilFree_struct in Hnf.
  destruct (children_unsafe true [] fs 0 Hnf) as (child & Hin & Hchild).
  exact (findLoop_unsafe _ _ _ child Hin Hchild found Hrun).
Qed.

(** *** Paths found lead through anonymous fields *)




Lemma fieldPaths_intro fs : forall i k f q,
  nth_error fs k = Some f ->
  Anonymous f = true ->
  rtype_eqb (FieldType f) controllerPtrType = false ->
  In q (embeddedPaths controllerPtrType (FieldType f)) ->
  In ((i + k)%nat :: q) (fieldPaths controllerPtrType fs i).
Proof.
  induction fs as [| [fn an ft] rest IH]; intros i k f q Hk Ha Hne Hq.
  - destruct k; discriminate Hk.
  - cbn [fieldPaths]. apply in_or_app. destruct k as [| k].
    + injection Hk as <-. simpl in Ha, Hne, Hq. subst an. rewrite Hne.
      left. rewrite Nat.add_0_r. apply in_map. exact Hq.
    + right. replace (i + S k)%nat with (S i + k)%nat by lia.
      eapply IH; eassumption.
Qed.


(** C4.  A struct that embeds a pointer to another struct (an anonymous
    field of a pointer type other than the controller type): every embedded
    occurrence of the controller type inside the pointed-to struct is an
    occurrence in the outer struct, yet [findControllers] does not return
    it.  The queued field value is a nil pointer, [Elem] of it is the zero
    Value, and [Type] of that panics. *)
Theorem embedded_pointer_to_struct_panics (n : string) (fs : list StructField)
    (k : nat) (f : StructField) (base : rtype) :
  nth_error fs k = Some f ->
  Anonymous f = true ->
  FieldType f = TPtr base ->
  TPtr base <> controllerPtrType ->
  (forall q, In q (embeddedPaths controllerPtrType base) ->
             In (k :: q) (embeddedPaths controllerPtrType (TStruct n fs))) /\
  exists msg, findControllers controllerPtrType (TStruct n fs) = Panic msg.
Proof.
  intros Hk Ha Ht Hne. split.
  - intros q Hq. rewrite embeddedPaths_struct.
    apply (fieldPaths_intro fs 0 k f q Hk Ha).
    + rewrite Ht. apply rtype_eqb_neq. exact Hne.
    + rewrite Ht. exact Hq.
  - eapply findControllers_nil_pointer; eassumption.
Qed.

(** C8.  A type with no embedded occurrence of the controller type gives
    the empty result when the walk meets no nil embedded pointer.  Every
    struct type on which the walk does meet one, with or without an
    occurrence, makes [findControllers] panic instead: so does a struct with
    no occurrence that embeds a pointer to another type. *)
Theorem no_occurrence_empty_or_panic :
  (forall t,
     nilFree controllerPtrType t = true ->
     embeddedPaths controllerPtrType t = [] ->
     findControllers controllerPtrType t = Ok []) /\
  (forall t,
     isStruct t = true ->
     nilFree controllerPtrType t = false ->
     exists msg, findControllers controllerPtrType t = Panic msg).
Proof.
  split.
  - intros t Hnf Hnone.
    destruct (findControllers_nilFree t Hnf) as (found & Hrun & Hperm).
    rewrite Hnone in Hperm. apply Permutation_sym, Permutation_nil in Hperm.
    subst found. exact Hrun.
  - intros t Hs Hnf. apply findControllers_unsafe; assumption.
Qed.

End Finder.

(** ** Degenerate shapes and registration *)

Section Registration.

Variable MethodSet : rtype -> list Method.
Variable controllerPtrType : rtype.
Variable appModule : ModuleRef.
Variable ModuleNamespace : ModuleRef -> string.


End Registration.

(** ** More on finding the embedded controllers *)

Section FinderOrder.

Variable controllerPtrType : rtype.

(** A larger budget does not change what the loop returns. *)
Lemma findLoop_more_fuel fuel : forall fuel' queue indexes,
  (fuel <= fuel')%nat ->
  findLoop controllerPtrType fuel queue indexes <> OutOfFuel ->
  findLoop controllerPtrType fuel' queue indexes
  = findLoop controllerPtrType fuel queue indexes.
Proof.
  induction fuel as [| fuel IH]; intros fuel' queue indexes Hle Hret.
  - destruct queue as [| node queue]; [destruct fuel'; reflexivity |].
    exfalso. apply Hret. reflexivity.
  - destruct queue as [| node queue]; [destruct fuel'; reflexivity |].
    destruct fuel' as [| fuel']; [lia |].
    cbn [findLoop] in *.
    destruct (derefNode node) as [[elem elemType] | msg |]; cbn [rbind] in *;
      try reflexivity.
    destruct (negb (isStruct elemType)); [apply IH; [lia | exact Hret] |].
    destruct (Value_NumField elem) as [n | msg |]; cbn [rbind] in *;
      try reflexivity.
    destruct (foldM (fieldStep controllerPtrType node elem elemType) (seq 0 n)
                (queue, indexes)) as [[queue' indexes'] | msg |]; cbn [rbind] in *;
      try reflexivity.
    apply IH; [lia | exact Hret].
Qed.

(** X1.  The loop of [findControllers] ends on every type: with the budget
    of the definition it returns or panics, and with any larger budget the
    loop gives that same outcome. *)
Theorem findControllers_budget_irrelevant (t : rtype) (fuel : nat) :
  (rtype_size (PtrTo t) <= fuel)%nat ->
  findControllers controllerPtrType t <> OutOfFuel /\
  findLoop controllerPtrType fuel [ {| val := New t; index := [] |} ] []
  = findControllers controllerPtrType t.
Proof.
  intros Hle. split; [apply findControllers_returns |].
  unfold findControllers. apply findLoop_more_fuel; [exact Hle |].
  apply (findControllers_returns controllerPtrType t).
Qed.

(** What the loop over the fields adds: nodes and paths one index longer
    than the node's path. *)
Lemma fieldLoop_depth node elem elemType xs : forall queue indexes queue' indexes',
  foldM (fieldStep controllerPtrType node elem elemType) xs (queue, indexes)
  = Ok (queue', indexes') ->
  exists extra caps,
    queue' = queue ++ extra /\ indexes' = indexes ++ caps /\
    Forall (fun n => List.length (index n) = S (List.length (index node))) extra /\
    Forall (fun p => List.length p = S (List.length (index node))) caps.
Proof.
  induction xs as [| i xs IH]; intros queue indexes queue' indexes'; cbn [foldM].
  - intros [= <- <-]. exists [], []. rewrite !app_nil_r. auto.
  - destruct (fieldStep controllerPtrType node elem elemType (queue, indexes) i)
      as [[q1 i1] | msg |] eqn:Hstep; cbn [rbind]; try discriminate.
    intros Hrest. destruct (IH _ _ _ _ Hrest) as (extra & caps & -> & -> & He & Hc).
    unfold fieldStep in Hstep.
    destruct (Type_Field elemType i) as [f | msg |]; cbn [rbind] in Hstep;
      try discriminate.
    destruct (negb (Anonymous f)).
    { injection Hstep as <- <-. eauto. }
    destruct (Value_Field elem i) as [fv | msg |]; cbn [rbind] in Hstep;
      try discriminate.
    destruct (rtype_eqb (FieldType f) controllerPtrType); injection Hstep as <- <-.
    + exists extra, ((index node ++ [i]) :: caps).
      rewrite <- app_assoc. split; [reflexivity |]. split; [reflexivity |].
      split; [exact He |]. constructor; [| exact Hc].
      rewrite length_app. simpl. lia.
    + exists ({| val := fv; index := [] ++ index node ++ [i] |} :: extra), caps.
      rewrite <- app_assoc. split; [reflexivity |]. split; [reflexivity |].
      split; [| exact Hc]. constructor; [| exact He].
      cbn [index app]. rewrite length_app. simpl. lia.
Qed.

Lemma levelOrdered_app l caps m :
  levelOrdered l ->
  Forall (fun p => (List.length p <= m)%nat) l ->
  Forall (fun p => List.length p = m) caps ->
  levelOrdered (l ++ caps) /\
  Forall (fun p => (List.length p <= m)%nat) (l ++ caps).
Proof.
  intros Hl Hle Hc. split.
  - induction l as [| p l IH]; cbn [app levelOrdered].
    + clear Hl Hle. induction caps as [| c caps IHc]; cbn [levelOrdered]; [exact I |].
      pose proof (Forall_inv Hc) as Hc1. pose proof (Forall_inv_tail Hc) as Hc2.
      simpl in Hc1. split; [| apply IHc; exact Hc2].
      eapply List.Forall_impl; [| exact Hc2]. intros q Hq. simpl in Hq. lia.
    + destruct Hl as [Hp Hl]. pose proof (Forall_inv Hle) as Hp1.
      pose proof (Forall_inv_tail Hle) as Hle'. simpl in Hp1.
      split; [| apply IH; assumption].
      apply Forall_app. split; [exact Hp |].
      eapply List.Forall_impl; [| exact Hc]. intros q Hq. simpl in Hq. lia.
  - apply Forall_app. split; [exact Hle |].
    eapply List.Forall_impl; [| exact Hc]. intros q Hq. simpl in Hq. lia.
Qed.

(** One turn of the loop: the head is skipped, or replaced by what its
    fields add. *)
Lemma findLoop_turn fuel node queue indexes found :
  findLoop controllerPtrType (S fuel) (node :: queue) indexes = Ok found ->
  exists extra caps,
    findLoop controllerPtrType fuel (queue ++ extra) (indexes ++ caps) = Ok found /\
    Forall (fun n => List.length (index n) = S (List.length (index node))) extra /\
    Forall (fun p => List.length p = S (List.length (index node))) caps.
Proof.
  cbn [findLoop].
  destruct (derefNode node) as [[elem elemType] | msg |]; cbn [rbind];
    try discriminate.
  destruct (negb (isStruct elemType)).
  { intros Hrun. exists [], []. rewrite !app_nil_r. auto. }
  destruct (Value_NumField elem) as [n | msg |]; cbn [rbind]; try discriminate.
  destruct (foldM (fieldStep controllerPtrType node elem elemType) (seq 0 n)
              (queue, indexes)) as [[queue' indexes'] | msg |] eqn:Hloop;
    cbn [rbind]; try discriminate.
  intros Hrun.
  destruct (fieldLoop_depth _ _ _ _ _ _ _ _ Hloop) as (extra & caps & -> & -> & He & Hc).
  eauto.
Qed.

(** The queue holds the nodes of depth [d] before those of depth [d + 1],
    and what is recorded is in order of depth and at most [d + 1] deep. *)
Lemma findLoop_levels fuel : forall d q1 q2 indexes found,
  Forall (fun n => List.length (index n) = d) q1 ->
  Forall (fun n => List.length (index n) = S d) q2 ->
  levelOrdered indexes ->
  Forall (fun p => (List.length p <= S d)%nat) indexes ->
  findLoop controllerPtrType fuel (q1 ++ q2) indexes = Ok found ->
  levelOrdered found.
Proof.
  induction fuel as [| fuel IH]; intros d q1 q2 indexes found H1 H2 Hord Hle Hrun.
  - destruct q1, q2; try discriminate Hrun. injection Hrun as <-. exact Hord.
  - destruct q1 as [| node q1].
    + destruct q2 as [| node q2].
      * injection Hrun as <-. exact Hord.
      * cbn [app] in Hrun. inversion H2 as [| ? ? Hn H2']; subst.
        destruct (findLoop_turn _ _ _ _ _ Hrun) as (extra & caps & Hrun' & He & Hc).
        rewrite Hn in He, Hc.
        assert (Hle' : Forall (fun p => (List.length p <= S (S d))%nat) indexes).
        { eapply List.Forall_impl; [| exact Hle]. intros p Hp. simpl in Hp. lia. }
        destruct (levelOrdered_app indexes caps (S (S d)) Hord Hle' Hc) as [Ho Hl].
        apply (IH (S d) q2 extra (indexes ++ caps) found H2' He Ho Hl Hrun').
    + cbn [app] in Hrun. inversion H1 as [| ? ? Hn H1']; subst.
      destruct (findLoop_turn _ _ _ _ _ Hrun) as (extra & caps & Hrun' & He & Hc).
      destruct (levelOrdered_app indexes caps (S (List.length (index node))) Hord Hle Hc)
        as [Ho Hl].
      rewrite <- app_assoc in Hrun'.
      apply (IH (List.length (index node)) q1 (q2 ++ extra) (indexes ++ caps) found H1');
        [apply Forall_app; split; assumption | exact Ho | exact Hl | exact Hrun'].
Qed.

(** X2.  Breadth-first order: whenever [findControllers] returns, the index
    paths are in order of depth, a shallower occurrence before a deeper
    one. *)
Theorem findControllers_level_order (t : rtype) (found : list (list nat)) :
  findControllers controllerPtrType t = Ok found -> levelOrdered found.
Proof.
  intros Hrun. unfold findControllers in Hrun.
  apply (findLoop_levels (rtype_size (PtrTo t)) 0
           [ {| val := New t; index := [] |} ] [] [] found).
  - constructor; [reflexivity | constructor].
  - constructor.
  - exact I.
  - constructor.
  - exact Hrun.
Qed.

End FinderOrder.

Section FinderDistinct.

Variable controllerPtrType : rtype.






End FinderDistinct.

(** ** More on hook discovery and replay *)

Section HookComponents.

Variable MethodSet : rtype -> list Method.

Local Arguments visited : simpl never.










End HookComponents.

Section DiscoveredReplay.

Variable MethodSet : rtype -> list Method.
Variable Call : FuncRef -> list Value -> result (list Value).









Lemma foldM_split {A B : Type} (body : B -> A -> result B) xs ys s :
  foldM body (xs ++ ys) s = let* s' := foldM body xs s in foldM body ys s'.
Proof.
  revert s. induction xs as [| x xs IH]; intros s; simpl; [reflexivity |].
  destruct (body s x); simpl; auto.
Qed.

(** X7.  [Invoke] stops where the path cannot be followed: at a nil
    pointer met before the path is used up, at an index beyond the fields
    of the struct reached, and at a value that is neither a struct nor a
    pointer.  It panics there, whatever the stored function is: the
    function is not called. *)
Theorem Invoke_panics_where_path_breaks (fp : ControllerFieldPath) (root : Value)
    (input : list Value) (pre post : list nat) (i : nat) (v : Value) :
  FieldIndexPath fp = pre ++ i :: post ->
  Navigates root pre v ->
  (exists u a, v = Val (TPtr u) a DNil) \/
  (exists n fs a d, v = Val (TStruct n fs) a d /\ nth_error fs i = None) \/
  (exists k n a d, v = Val (TLeaf k n) a d) ->
  exists msg, forall call, Invoke call fp root input = Panic msg.
Proof.
  intros Hpath Hnav Hstuck.
  assert (Hstep : exists msg, invokeStep v i = Panic msg).
  { destruct Hstuck as [(u & a & ->) | [(n & fs & a & d & -> & Hi) | (k & n & a & d & ->)]].
    - eexists. reflexivity.
    - unfold invokeStep. cbn. destruct d; try (eexists; reflexivity).
      rewrite Hi. eexists. reflexivity.
    - eexists. reflexivity. }
  destruct Hstep as (msg & Hstep). exists msg. intros call.
  unfold Invoke. rewrite Hpath, foldM_split, (Navigates_foldM _ _ _ Hnav).
  cbn [rbind foldM]. rewrite Hstep. reflexivity.
Qed.

End DiscoveredReplay.

(** ** More on the registry *)

Section RegistryFrame.

Variable MethodSet : rtype -> list Method.
Variable controllerPtrType : rtype.
Variable appModule : ModuleRef.
Variable ModuleNamespace : ModuleRef -> string.

Local Abbreviation register :=
  (AddControllerType MethodSet controllerPtrType appModule ModuleNamespace).

(** The map of controllers after a call that returns. *)
Lemma register_controllers c moduleSource controllerType methods ct c' :
  register c moduleSource controllerType methods = Ok (ct, c') ->
  let m := default appModule moduleSource in
  let name := (ModuleNamespace m ++ ToLower (Type_Name controllerType))%string in
  let short := ToLower (Type_Name controllerType) in
  controllers c' =
    match controllers c !! name with
    | Some _ => controllers c
    | None =>
        if (m =? appModule)%nat
        then <[ short := ct ]> (<[ name := ct ]> (controllers c))
        else <[ name := ct ]> (controllers c)
    end.
Proof.
  unfold AddControllerType.
  destruct (findControllers controllerPtrType controllerType) as [indexes | |];
    try discriminate.
  destruct (NewControllerTypeEvents MethodSet controllerType) as [events | |];
    try discriminate.
  cbn [rbind]. unfold ControllerType_Name, ShortName. cbn [Namespace Type_].
  rewrite default_module. intros [= <- <-]. cbn zeta.
  destruct (controllers c !! (ModuleNamespace (default appModule moduleSource)
                              ++ ToLower (Type_Name controllerType))%string);
    [reflexivity |].
  cbn. destruct (default appModule moduleSource =? appModule)%nat; reflexivity.
Qed.

(** X8.  A registration that returns touches at most two keys of the map:
    every key other than the name and the bare short name keeps its entry,
    and outside the application module so does the short name.  No key is
    removed, and every entry of the new map is the new descriptor or an
    entry the map already had. *)
Theorem registration_touches_two_keys (c : Registry)
    (moduleSource : option ModuleRef) (controllerType : rtype)
    (methods : list MethodType) (ct : ControllerType) (c' : Registry) :
  register c moduleSource controllerType methods = Ok (ct, c') ->
  let name :=
    (ModuleNamespace (default appModule moduleSource)
     ++ ToLower (Type_Name controllerType))%string in
  let short := ToLower (Type_Name controllerType) in
  (forall k, k <> name -> k <> short ->
             controllers c' !! k = controllers c !! k) /\
  (default appModule moduleSource <> appModule ->
   forall k, k <> name -> controllers c' !! k = controllers c !! k) /\
  (forall k, is_Some (controllers c !! k) -> is_Some (controllers c' !! k)) /\
  (forall k d, controllers c' !! k = Some d ->
               d = ct \/ controllers c !! k = Some d).
Proof.
  intros Hreg name short.
  pose proof (register_controllers _ _ _ _ _ _ Hreg) as Hmap.
  cbn zeta in Hmap. fold name short in Hmap.
  destruct (controllers c !! name) as [first |] eqn:Hname.
  { rewrite Hmap. repeat split; auto. }
  destruct (Nat.eqb_spec (default appModule moduleSource) appModule) as [Happ | Hother];
    rewrite Hmap; repeat split.
  - intros k Hn Hs. rewrite !lookup_insert_ne by congruence. reflexivity.
  - intros Hne. contradiction.
  - intros k Hk. rewrite !lookup_insert_is_Some.
    destruct (decide (short = k)); [left; assumption | right].
    split; [assumption |].
    destruct (decide (name = k)); [left; assumption | right; auto].
  - intros k d. rewrite !lookup_insert. repeat case_decide; intros Hd;
      try (injection Hd as <-); auto.
  - intros k Hn Hs. rewrite lookup_insert_ne by congruence. reflexivity.
  - intros _ k Hn. rewrite lookup_insert_ne by congruence. reflexivity.
  - intros k Hk. rewrite lookup_insert_is_Some.
    destruct (decide (name = k)); [left; assumption | right; auto].
  - intros k d. rewrite lookup_insert. case_decide; intros Hd;
      try (injection Hd as <-); auto.
Qed.

(** X9.  Names collide as plain strings.  When two registrations, of any
    two types in any two modules, compute the same name (the namespace
    followed by the lowered type name, so also for type names that differ
    only in case), the second, if it returns, is rejected: the map and the
    module lists stay as the first left them and the name still leads to
    the first descriptor. *)
Theorem equal_names_collide (c : Registry)
    (module1 module2 : option ModuleRef) (type1 type2 : rtype)
    (methods1 methods2 : list MethodType)
    (ct1 ct2 : ControllerType) (c1 c2 : Registry) :
  (ModuleNamespace (default appModule module1) ++ ToLower (Type_Name type1))%string
  = (ModuleNamespace (default appModule module2) ++ ToLower (Type_Name type2))%string ->
  controllers c !! (ModuleNamespace (default appModule module1)
                    ++ ToLower (Type_Name type1))%string = None ->
  register c module1 type1 methods1 = Ok (ct1, c1) ->
  register c1 module2 type2 methods2 = Ok (ct2, c2) ->
  controllers c2 = controllers c1 /\
  moduleControllers c2 = moduleControllers c1 /\
  controllers c2 !! ControllerType_Name ct2 = Some ct1 /\
  ControllerType_Name ct2 = ControllerType_Name ct1.
Proof.
  intros Heq Hfree Hreg1 Hreg2.
  destruct (register_fresh MethodSet controllerPtrType appModule ModuleNamespace
              c module1 type1 methods1 ct1 c1 Hfree Hreg1) as (Hname & _).
  rewrite Heq in Hname.
  destruct (register_taken MethodSet controllerPtrType appModule ModuleNamespace
              c1 module2 type2 methods2 ct1 ct2 c2 Hname Hreg2) as (Hc & Hm & _).
  assert (Hn1 : ControllerType_Name ct1
                = (ModuleNamespace (default appModule module1)
                   ++ ToLower (Type_Name type1))%string).
  { revert Hreg1. unfold AddControllerType.
    destruct (findControllers controllerPtrType type1); try discriminate.
    destruct (NewControllerTypeEvents MethodSet type1); try discriminate.
    cbn [rbind]. intros [= <- _]. rewrite default_module. reflexivity. }
  assert (Hn2 : ControllerType_Name ct2
                = (ModuleNamespace (default appModule module2)
                   ++ ToLower (Type_Name type2))%string).
  { revert Hreg2. unfold AddControllerType.
    destruct (findControllers controllerPtrType type2); try discriminate.
    destruct (NewControllerTypeEvents MethodSet type2); try discriminate.
    cbn [rbind]. intros [= <- _]. rewrite default_module. reflexivity. }
  split; [exact Hc |]. split; [exact Hm |].
  split; [rewrite Hc, Hn2; exact Hname | rewrite Hn1, Hn2, Heq; reflexivity].
Qed.

Lemma check_non_struct t path cte :
  isStruct t = false ->
  check MethodSet t path cte = Panic "reflect: NumField of non-struct type".
Proof. intros Hs. destruct t; [reflexivity | reflexivity | discriminate Hs]. Qed.

(** X10.  The types that can be registered: [AddControllerType] returns
    exactly for the struct types the walk of [findControllers] crosses
    without meeting a nil embedded pointer.  On a type that is not a
    struct it panics in hook discovery, although [findControllers] has
    returned the empty result for it; on the other struct types it panics
    in [findControllers]. *)
Theorem registration_returns_iff (c : Registry) (moduleSource : option ModuleRef)
    (controllerType : rtype) (methods : list MethodType) :
  ((exists ct c', register c moduleSource controllerType methods = Ok (ct, c')) <->
   isStruct controllerType = true /\
   nilFree controllerPtrType controllerType = true) /\
  (isStruct controllerType = false ->
   findControllers controllerPtrType controllerType = Ok [] /\
   register c moduleSource controllerType methods
   = Panic "reflect: NumField of non-struct type") /\
  (isStruct controllerType = true ->
   nilFree controllerPtrType controllerType = false ->
   exists msg,
     findControllers controllerPtrType controllerType = Panic msg /\
     register c moduleSource controllerType methods = Panic msg).
Proof.
  assert (Hnon : isStruct controllerType = false ->
                 findControllers controllerPtrType controllerType = Ok [] /\
                 register c moduleSource controllerType methods
                 = Panic "reflect: NumField of non-struct type").
  { intros Hs.
    assert (Hfind : findControllers controllerPtrType controllerType = Ok [])
      by (destruct controllerType; [reflexivity | reflexivity | discriminate Hs]).
    split; [exact Hfind |]. unfold AddControllerType, NewControllerTypeEvents.
    rewrite Hfind, (check_non_struct _ _ _ Hs). reflexivity. }
  assert (Hbad : isStruct controllerType = true ->
                 nilFree controllerPtrType controllerType = false ->
                 exists msg,
                   findControllers controllerPtrType controllerType = Panic msg /\
                   register c moduleSource controllerType methods = Panic msg).
  { intros Hs Hnf.
    destruct (findControllers_unsafe controllerPtrType controllerType Hs Hnf)
      as (msg & Hp).
    exists msg. split; [exact Hp |]. unfold AddControllerType. rewrite Hp.
    reflexivity. }
  split; [| split; assumption].
  split.
  - intros (ct & c' & Hreg).
    destruct (isStruct controllerType) eqn:Hs.
    + split; [reflexivity |].
      destruct (nilFree controllerPtrType controllerType) eqn:Hnf; [reflexivity |].
      destruct (Hbad eq_refl eq_refl) as (msg & _ & Hp). congruence.
    + destruct (Hnon eq_refl) as [_ Hp]. congruence.
  - intros [Hs Hnf].
    destruct (findControllers_nilFree controllerPtrType controllerType Hnf)
      as (found & Hrun & _).
    destruct (register_built MethodSet controllerPtrType appModule ModuleNamespace
                c moduleSource controllerType methods found _ Hrun
                (check_stored MethodSet controllerType Hs [] emptyEvents))
      as (c' & Hreg).
    eauto.
Qed.

End RegistryFrame.

Section RegistryInvariant.

Variable MethodSet : rtype -> list Method.
Variable controllerPtrType : rtype.
Variable appModule : ModuleRef.
Variable ModuleNamespace : ModuleRef -> string.

(** X11.  Registration keeps the map of controllers named: if every key
    is the name of its descriptor, or the bare short name of a descriptor
    of the application module, the same holds after any call that returns;
    it holds of the empty map, and so of every map built by registrations
    alone. *)
Theorem registration_keeps_keys_named (c : Registry)
    (moduleSource : option ModuleRef) (controllerType : rtype)
    (methods : list MethodType) (ct : ControllerType) (c' : Registry) :
  keysNamed appModule (controllers c) ->
  AddControllerType MethodSet controllerPtrType appModule ModuleNamespace
    c moduleSource controllerType methods = Ok (ct, c') ->
  keysNamed appModule (controllers c') /\ keysNamed appModule ∅.
Proof.
  intros Hinv Hreg. split; [| intros k d Hk; rewrite lookup_empty in Hk; discriminate Hk].
  pose proof (register_controllers _ _ _ _ _ _ _ _ _ _ Hreg) as Hmap.
  cbn zeta in Hmap.
  assert (Hct : ControllerType_Name ct
                = (ModuleNamespace (default appModule moduleSource)
                   ++ ToLower (Type_Name controllerType))%string /\
                ShortName ct = ToLower (Type_Name controllerType) /\
                ModuleSource ct = default appModule moduleSource).
  { revert Hreg. unfold AddControllerType.
    destruct (findControllers controllerPtrType controllerType); try discriminate.
    destruct (NewControllerTypeEvents MethodSet controllerType); try discriminate.
    cbn [rbind]. intros [= <- _]. rewrite default_module. auto. }
  destruct Hct as (Hn & Hsh & Hmod).
  intros k d Hk. rewrite Hmap in Hk.
  destruct (controllers c !! (ModuleNamespace (default appModule moduleSource)
                              ++ ToLower (Type_Name controllerType))%string);
    [exact (Hinv k d Hk) |].
  destruct (Nat.eqb_spec (default appModule moduleSource) appModule) as [Happ | Hother].
  - rewrite lookup_insert in Hk. case_decide as Hks.
    + injection Hk as <-. right. split; congruence.
    + rewrite lookup_insert in Hk. case_decide as Hkn.
      * injection Hk as <-. left. congruence.
      * exact (Hinv k d Hk).
  - rewrite lookup_insert in Hk. case_decide as Hkn.
    + injection Hk as <-. left. congruence.
    + exact (Hinv k d Hk).
Qed.

End RegistryInvariant.

(** ** The theorems at the fixtures *)

Import Fixtures.

Example App_controllers : findControllers controllerPtr App = Ok [[1; 0]]%nat.
Proof. reflexivity. Qed.

Example Twice_controllers :
  findControllers controllerPtr Twice = Ok [[1]; [0; 0]]%nat.
Proof. reflexivity. Qed.

Example Plain_controllers : findControllers controllerPtr Plain = Ok [].
Proof. reflexivity. Qed.

Example PtrApp_panics :
  findControllers controllerPtr PtrApp
  = Panic "reflect: call of reflect.Value.Type on zero Value".
Proof. reflexivity. Qed.

Example Lone_panics :
  findControllers controllerPtr Lone
  = Panic "reflect: call of reflect.Value.Type on zero Value".
Proof. reflexivity. Qed.

Example Outer_events :
  NewControllerTypeEvents methodSet Outer
  = Ok {| Before := [newFieldPath false 11 [1]; newFieldPath false 21 []];
          After := [newFieldPath false 20 []; newFieldPath false 10 [1]];
          Finally := [newFieldPath true 23 []];
          Panic_ := [] |}%nat.
Proof. reflexivity. Qed.

Example int_events :
  NewControllerTypeEvents methodSet tInt
  = Panic "reflect: NumField of non-struct type".
Proof. reflexivity. Qed.

Example Invoke_value_receiver :
  Invoke echo (newFieldPath false 11%nat [1]%nat) outerPtrValue []
  = Ok [Val Inner true (DStruct [DLeaf 3])].
Proof. reflexivity. Qed.

Example Invoke_unaddressable :
  Invoke echo (newFieldPath true 11%nat [1]%nat) (Val Outer false outerData) []
  = Panic "reflect.Value.Addr of unaddressable value".
Proof. reflexivity. Qed.

Lemma before_reversed_others_in_order_witness :
  isStruct Outer = true /\
  exists ev,
    NewControllerTypeEvents methodSet Outer = Ok ev /\
    List.map FunctionCall (Before ev) = [11; 21]%nat /\
    List.map FunctionCall (After ev) = [20; 10]%nat /\
    List.map FieldIndexPath (Before ev) = [[1]; []]%nat.
Proof.
  split; [reflexivity |].
  destruct (before_reversed_others_in_order methodSet Outer eq_refl)
    as (_ & ev & own & nested & Hev & _ & _ & _ & Hb & Ha & _).
  exists ev.
  split; [exact Hev |].
  split; [rewrite Hb; reflexivity |].
  split; [rewrite Ha; reflexivity |].
  rewrite Hb; reflexivity.
Defined.



Lemma embedded_pointer_to_struct_panics_witness :
  In [0; 0]%nat (embeddedPaths controllerPtr PtrApp) /\
  exists msg, findControllers controllerPtr PtrApp = Panic msg.
Proof.
  assert (Hne : TPtr Base <> controllerPtr) by (apply rtype_eqb_neq; reflexivity).
  destruct (embedded_pointer_to_struct_panics controllerPtr "PtrApp"
              [mkStructField "Base" true (TPtr Base)] 0
              (mkStructField "Base" true (TPtr Base)) Base
              eq_refl eq_refl eq_refl Hne) as [Hocc Hpanic].
  split; [| exact Hpanic].
  apply (Hocc [0]%nat). simpl. auto.
Defined.

Lemma Invoke_replays_path_witness :
  Invoke echo (newFieldPath true 11%nat [1]%nat) outerPtrValue []
  = Ok [Val (TPtr Inner) false (DPtr (DStruct [DLeaf 3]))].
Proof.
  apply (proj1 (Invoke_replays_path echo (newFieldPath true 11%nat [1]%nat)
                  outerPtrValue [])
           (Val Inner true (DStruct [DLeaf 3]))).
  - eapply nav_pointer; [reflexivity | apply nav_done].
  - apply norm_take_address. reflexivity.
Defined.



Lemma no_occurrence_empty_or_panic_witness :
  findControllers controllerPtr Plain = Ok [] /\
  embeddedPaths controllerPtr Lone = [] /\
  nilFree controllerPtr Lone = false /\
  exists msg, findControllers controllerPtr Lone = Panic msg.
Proof.
  destruct (no_occurrence_empty_or_panic controllerPtr) as [Hempty Hpanic].
  split; [apply Hempty; reflexivity |].
  split; [reflexivity |]. split; [reflexivity |].
  apply (Hpanic Lone); reflexivity.
Defined.

Lemma Method_lookup_case_insensitive_witness :
  ControllerType_Method appDescriptor "index" = Some indexMethod /\
  ControllerType_Method appDescriptor "INDEX" = Some indexMethod /\
  ControllerType_Method appDescriptor "Index" = Some indexMethod /\
  ControllerType_Method appDescriptor "Missing" = None.
Proof.
  assert (Hlow : forall m, In m (Methods appDescriptor) ->
                           lowerName m = ToLower (Name m)).
  { intros m [<- | [<- | []]]; reflexivity. }
  destruct (Method_lookup_case_insensitive appDescriptor Hlow)
    as (_ & Hfind & Hnone & _).
  assert (Hpre : forall m', In m' [showMethod] ->
                            ToLower (Name m') <> ToLower (Name indexMethod)).
  { intros m' [<- | []]. discriminate. }
  split; [| split; [| split]].
  - apply (Hfind [showMethod] indexMethod [] "index" eq_refl eq_refl Hpre).
  - apply (Hfind [showMethod] indexMethod [] "INDEX" eq_refl eq_refl Hpre).
  - apply (Hfind [showMethod] indexMethod [] "Index" eq_refl eq_refl Hpre).
  - apply Hnone. intros m [<- | [<- | []]]; discriminate.
Defined.

Lemma nil_module_registers_in_app_module_witness :
  exists ct c',
    AddControllerType methodSet controllerPtr appModule moduleNamespace
      emptyRegistry None App [indexMethod] = Ok (ct, c') /\
    Namespace ct = "app|" /\
    controllers c' !! "app|app" = Some ct /\
    controllers c' !! "app" = Some ct.
Proof.
  destruct (proj2 (nil_module_registers_in_app_module methodSet controllerPtr
                     appModule moduleNamespace emptyRegistry App [indexMethod])
              [[1; 0]]%nat emptyEvents eq_refl eq_refl)
    as (ct & c' & Hreg & Hns & _ & Hshort & Hname & Hfresh).
  exists ct, c'. split; [exact Hreg |]. split; [exact Hns |].
  rewrite Hname, Hshort in Hfresh. apply Hfresh. reflexivity.
Defined.

Lemma findControllers_budget_irrelevant_witness :
  (rtype_size (PtrTo App) <= 100)%nat /\
  findLoop controllerPtr 100 [ {| val := New App; index := [] |} ] []
  = Ok [[1; 0]]%nat.
Proof.
  assert (Hle : (rtype_size (PtrTo App) <= 100)%nat) by (simpl; lia).
  split; [exact Hle |].
  destruct (findControllers_budget_irrelevant controllerPtr App 100 Hle) as [_ Heq].
  rewrite Heq. reflexivity.
Defined.

Lemma findControllers_level_order_witness : levelOrdered [[1]; [0; 0]]%nat.
Proof.
  apply (findControllers_level_order controllerPtr Twice). reflexivity.
Defined.





Lemma Invoke_panics_where_path_breaks_witness :
  exists msg, forall call,
    Invoke call (newFieldPath true 0%nat [0; 0]%nat) ptrAppValue [] = Panic msg.
Proof.
  apply (Invoke_panics_where_path_breaks (newFieldPath true 0%nat [0; 0]%nat)
           ptrAppValue [] [0]%nat [] 0%nat (Val (TPtr Base) true DNil) eq_refl).
  - eapply nav_pointer; [reflexivity | apply nav_done].
  - left. exists Base, true. reflexivity.
Defined.

Lemma registration_touches_two_keys_witness :
  exists ct c',
    AddControllerType methodSet controllerPtr appModule moduleNamespace
      takenRegistry (Some otherModule) App [] = Ok (ct, c') /\
    controllers c' !! "app" = Some appDescriptor /\
    controllers c' !! "app|app" = Some appDescriptor.
Proof.
  eexists _, _. split; [reflexivity |].
  destruct (registration_touches_two_keys methodSet controllerPtr appModule
              moduleNamespace takenRegistry (Some otherModule) App [] _ _ eq_refl)
    as (_ & Hother & _).
  assert (Hne : default appModule (Some otherModule) <> appModule) by discriminate.
  split.
  - rewrite (Hother Hne "app"); [reflexivity | discriminate].
  - rewrite (Hother Hne "app|app"); [reflexivity | discriminate].
Defined.

Lemma equal_names_collide_witness :
  exists ct1 c1 ct2 c2,
    AddControllerType methodSet controllerPtr appModule moduleNamespace
      emptyRegistry None Foo [showMethod] = Ok (ct1, c1) /\
    AddControllerType methodSet controllerPtr appModule moduleNamespace
      c1 None FOO [indexMethod] = Ok (ct2, c2) /\
    Type_ ct1 = Foo /\ Type_ ct2 = FOO /\
    controllers c2 !! "app|foo" = Some ct1.
Proof.
  eexists _, _, _, _. split; [reflexivity |]. split; [reflexivity |].
  split; [reflexivity |]. split; [reflexivity |].
  destruct (equal_names_collide methodSet controllerPtr appModule moduleNamespace
              emptyRegistry None None Foo FOO [showMethod] [indexMethod]
              _ _ _ _ eq_refl eq_refl eq_refl eq_refl) as (_ & _ & Hname & _).
  exact Hname.
Defined.

Lemma registration_returns_iff_witness :
  AddControllerType methodSet controllerPtr appModule moduleNamespace
    emptyRegistry None tInt [] = Panic "reflect: NumField of non-struct type" /\
  (exists msg,
     AddControllerType methodSet controllerPtr appModule moduleNamespace
       emptyRegistry None PtrApp [] = Panic msg) /\
  (exists ct c',
     AddControllerType methodSet controllerPtr appModule moduleNamespace
       emptyRegistry None App [] = Ok (ct, c')).
Proof.
  split; [| split].
  - destruct (registration_returns_iff methodSet controllerPtr appModule
                moduleNamespace emptyRegistry None tInt []) as (_ & Hnon & _).
    apply (Hnon eq_refl).
  - destruct (registration_returns_iff methodSet controllerPtr appModule
                moduleNamespace emptyRegistry None PtrApp []) as (_ & _ & Hbad).
    destruct (Hbad eq_refl eq_refl) as (msg & _ & Hp). exists msg. exact Hp.
  - destruct (registration_returns_iff methodSet controllerPtr appModule
                moduleNamespace emptyRegistry None App []) as (Hiff & _).
    apply Hiff. split; reflexivity.
Defined.

Lemma registration_keeps_keys_named_witness :
  exists ct c',
    AddControllerType methodSet controllerPtr appModule moduleNamespace
      emptyRegistry None App [indexMethod] = Ok (ct, c') /\
    keysNamed appModule (controllers c').
Proof.
  assert (Hempty : keysNamed appModule (controllers emptyRegistry)).
  { intros k d Hk. simpl in Hk. rewrite lookup_empty in Hk. discriminate Hk. }
  eexists _, _. split; [reflexivity |].
  apply (registration_keeps_keys_named methodSet controllerPtr appModule
           moduleNamespace emptyRegistry None App [indexMethod] _ _ Hempty eq_refl).
Defined.
